(** * Synthetic multi-digit MNIST: the compositor and the sequence sampler

    A shallow embedding of [unchanged_mnist.py] (a Python 2 notebook export)
    and the properties of its two functions of substance:
    [concat_images]/[concat_labels], which scale and centre up to five glyphs
    in a 64x64 canvas and pad the label vector with the filler 10, and
    [generate_digit_sequences], which fills a dataset with an equal number of
    samples of every sequence length.

    Conventions.
    - The notebook runs under Python 2: [/] on two ints is floor division,
      which is [Z.div] (written [`div`]).
    - A uint8 pixel is a [byte]; a 2-D uint8 array is a list of rows.
    - An exception is a [Raise] in the [result] type; loops are folds in that
      error monad, so an exception leaves the loop at once.
    - [scipy.misc.imresize] and [random.sample] are library calls: they are
      parameters of the development, [random.sample] with an explicit
      generator state that is threaded through the sampler. *)

From Stdlib Require Import ZArith QArith Lia Strings.Byte.
From stdpp Require Import base numbers option list gmap.

Open Scope Z_scope.

(** ** Exceptions and the error monad *)

Inductive exception := ValueError | IndexError | TypeError.

Inductive result (A : Type) :=
| Ok (a : A)
| Raise (e : exception).
Arguments Ok {A} a.
Arguments Raise {A} e.

Definition bind {A B} (m : result A) (k : A → result B) : result B :=
  match m with
  | Ok a => k a
  | Raise e => Raise e
  end.

Notation "x <- m ;; k" := (bind m (λ x, k))
  (at level 100, m at next level, right associativity).

(** [for i in idx: s = body(i, s)], leaving at the first exception. *)
Fixpoint for_each {St} (body : nat → St → result St) (idx : list nat) (s : St)
  : result St :=
  match idx with
  | [] => Ok s
  | i :: idx => s' <- body i s ;; for_each body idx s'
  end.

(** Python's [range(a, b)]. *)
Definition range (a b : nat) : list nat := seq a (b - a).

(** [l[i]] for [0 <= i]: IndexError out of range. *)
Definition getitem {A} (l : list A) (i : nat) : result A :=
  match l !! i with
  | Some x => Ok x
  | None => Raise IndexError
  end.

(** [l[i] = v] for [0 <= i]: IndexError out of range. *)
Definition setitem {A} (l : list A) (i : nat) (v : A) : result (list A) :=
  if decide (i < length l)%nat then Ok (<[i:=v]> l) else Raise IndexError.

(** ** numpy arrays of dtype uint8 and slice assignment *)

Abbreviation raster := (list (list byte)).

(** [np.zeros(shape=(h, w), dtype="uint8")] *)
Definition zeros (h w : nat) : raster := replicate h (replicate w x00).

Definition nrows (a : raster) : nat := length a.
Definition ncols (a : raster) : nat :=
  match a with
  | [] => 0%nat
  | row :: _ => length row
  end.

Definition has_shape (h w : nat) (a : raster) : Prop :=
  length a = h ∧ Forall (λ row, length row = w) a.

Definition pixel (a : raster) (r c : nat) : option byte :=
  a !! r ≫= λ row, row !! c.

(** A slice bound against an axis of length [len], as CPython's
    [PySlice_AdjustIndices] does for a step of 1: a negative bound counts
    from the end, and the result is clipped to [0, len]. *)
Definition adjust_index (i len : Z) : Z :=
  if decide (i < 0) then Z.max 0 (i + len) else Z.min i len.

(** The first index and the number of indices that [start:stop] selects. *)
Definition slice_indices (start stop : Z) (len : nat) : nat * nat :=
  let lo := adjust_index start (Z.of_nat len) in
  let hi := adjust_index stop (Z.of_nat len) in
  (Z.to_nat lo, Z.to_nat (hi - lo)).

(** numpy broadcasting along one axis: the length is already [n], or it is 1
    and the single entry is repeated. *)
Definition stretch {A} (n : nat) (l : list A) : option (list A) :=
  if decide (length l = n) then Some l
  else match l with
       | [x] => Some (replicate n x)
       | _ => None
       end.

Definition broadcast_to (h w : nat) (v : raster) : option raster :=
  stretch h v ≫= mapM (stretch w).

(** Overwrite the [h] x [w] block whose top-left corner is [(r0, c0)]. *)
Definition paste (a : raster) (r0 c0 h w : nat) (v : raster) : raster :=
  imap (λ r row,
    if decide (r0 ≤ r < r0 + h)%nat then
      imap (λ c px,
        if decide (c0 ≤ c < c0 + w)%nat
        then default px (pixel v (r - r0) (c - c0))
        else px) row
    else row) a.

(** [a[r1:r2, c1:c2] = v]: ValueError when [v] does not broadcast to the
    shape of the selected block. *)
Definition setitem_slice (a : raster) (rows cols : Z * Z) (v : raster)
  : result raster :=
  let '(r0, h) := slice_indices rows.1 rows.2 (nrows a) in
  let '(c0, w) := slice_indices cols.1 cols.2 (ncols a) in
  match broadcast_to h w v with
  | Some v' => Ok (paste a r0 c0 h w v')
  | None => Raise ValueError
  end.

(** ** The notebook's globals *)

Definition height : Z := 64.
Definition width : Z := 64.
Definition max_digits : nat := 5.
Definition scale : Q := 45 # 100.
Definition new_height : Z := 12.
Definition new_width : Z := 12.
Definition dataset_size : nat := Z.to_nat 50000.

(** ** The compositor *)

(** The paddings and the starting column of [concat_images]. *)
Definition y_pad : Z := (height - new_height) `div` 2.
Definition x_pad (num_digits : nat) : Z :=
  (width - Z.of_nat num_digits * new_width) `div` 2.
Definition x_offset (num_digits i : nat) : Z :=
  x_pad num_digits + (Z.of_nat i * new_width).

(** The rows and the columns that the slice assignment of line 164 selects
    in a canvas of [height] x [width]: the first index and the count. *)
Definition glyph_rows : nat * nat :=
  slice_indices y_pad (height - y_pad) (Z.to_nat height).
Definition glyph_cols (num_digits i : nat) : nat * nat :=
  slice_indices (x_offset num_digits i) (x_offset num_digits i + new_width)
    (Z.to_nat width).
Definition in_slice (s : nat * nat) (k : nat) : Prop :=
  (s.1 ≤ k < s.1 + s.2)%nat.

(** [canvas[y_pad:height-y_pad, x_pad:width-x_pad]]: what is left of a
    canvas without margins of [y_pad] rows above and below and of [x_pad]
    columns left and right. *)
Definition band (num_digits : nat) (canvas : raster) : raster :=
  (λ row : list byte,
     take (Z.to_nat (width - 2 * x_pad num_digits))
       (drop (Z.to_nat (x_pad num_digits)) row))
  <$> take (Z.to_nat (height - 2 * y_pad)) (drop (Z.to_nat y_pad) canvas).

(** [np.hstack] of blocks of [h] rows: row [r] is the rows [r] of the
    blocks, end to end. *)
Definition hstack (h : nat) (blocks : list raster) : raster :=
  (λ r, blocks ≫= λ block : raster, default [] (block !! r))
  <$> range 0 h.

Section Compositor.
(** A source glyph (a float array) is only ever handed to [imresize],
    which returns a fresh uint8 array. *)
Context {glyph : Type}.
Variable imresize : glyph → Q → raster.

Definition concat_images (images : list glyph) : result raster :=
  let num_digits := length images in
  let new_image := zeros (Z.to_nat height) (Z.to_nat width) in
  for_each (λ i new_image,
      image <- getitem images i ;;
      let scaled := imresize image scale in
      setitem_slice new_image
        (y_pad, height - y_pad)
        (x_offset num_digits i, x_offset num_digits i + new_width)
        scaled)
    (range 0 num_digits) new_image.

(** [imresize] with a glyph that scales to a single pixel repeated over the
    footprint, as numpy's broadcasting repeats it; any other scaled glyph is
    as [imresize] returns it. *)
Definition smeared (img : glyph) (s : Q) : raster :=
  match imresize img s with
  | [[px]] =>
      replicate (Z.to_nat new_height) (replicate (Z.to_nat new_width) px)
  | v => v
  end.

(** Every glyph scales to the 12 x 12 footprint. *)
Definition scaled_to_footprint (images : list glyph) : Prop :=
  Forall (λ img,
    has_shape (Z.to_nat new_height) (Z.to_nat new_width)
      (imresize img scale)) images.

(** The canvas after the first [k] glyphs of [images] have been placed:
    it has the shape of the canvas, each of these glyphs fills its block,
    and the pixels outside all the blocks are background. *)
Definition placed (images : list glyph) (k : nat) (canvas : raster) : Prop :=
  has_shape (Z.to_nat height) (Z.to_nat width) canvas ∧
  (∀ i img r c,
     (i < k)%nat → images !! i = Some img →
     (r < Z.to_nat new_height)%nat → (c < Z.to_nat new_width)%nat →
     pixel canvas (Z.to_nat y_pad + r)
       (Z.to_nat (x_offset (length images) i) + c) =
     pixel (imresize img scale) r c) ∧
  (∀ r c,
     (r < Z.to_nat height)%nat → (c < Z.to_nat width)%nat →
     ¬ (y_pad ≤ Z.of_nat r < y_pad + new_height ∧
        x_pad (length images) ≤ Z.of_nat c <
          x_pad (length images) + Z.of_nat k * new_width) →
     pixel canvas r c = Some x00).
End Compositor.

(** Lines 179-188. The labels are the entries of an array of ints, as
    [labels[selection]] is in the generator; a Python int that a slot of
    [new_label] cannot hold, for which the store raises OverflowError, is
    outside the model. *)
Definition concat_labels (labels : list Z) (num_images : nat) : list Z :=
  foldl (λ new_label i,
      match labels !! i with
      | Some l (* i < len(labels) *) => <[i:=l]> new_label
      | None => <[i:=10]> new_label
      end)
    (replicate num_images 0) (range 0 num_images).

(** What the generator does with the two functions at lines 256-257: the
    canvas and the label vector of one sample. The spec calls this pair
    [compose]. *)
Definition compose {glyph} (imresize : glyph → Q → raster)
    (images : list glyph) (labels : list Z) : result (raster * list Z) :=
  canvas <- concat_images imresize images ;;
  Ok (canvas, concat_labels labels 5).

(** ** The sequence sampler *)

(** Storing into an array of dtype int32 keeps the low 32 bits. *)
Definition to_int32 (z : Z) : Z := (z + 2 ^ 31) `mod` 2 ^ 32 - 2 ^ 31.

(** [a[selection]] for a list of indices: the selected entries in the order
    of the selection, as a fresh array. *)
Fixpoint gather {A} (a : list A) (selection : list nat) : result (list A) :=
  match selection with
  | [] => Ok []
  | i :: selection =>
      x <- getitem a i ;;
      xs <- gather a selection ;;
      Ok (x :: xs)
  end.

(** [np.expand_dims(X, axis=3)]: every pixel becomes an array of one. *)
Definition expand_canvas (a : raster) : list (list (list byte)) :=
  (λ row : list byte, (λ px, [px]) <$> row) <$> a.
Definition expand_dims (X : list raster) : list (list (list (list byte))) :=
  expand_canvas <$> X.

(** [(y != 10).sum(1)], the notebook's count of real digits per row. *)
Definition sequence_length (row : list Z) : nat :=
  length (filter (λ v, v ≠ 10) row).

(** The number of rows of [len] real digits: a bar of the notebook's
    histogram of sequence lengths. *)
Definition count_of_length (len : nat) (y : list (list Z)) : nat :=
  length (filter (λ row, sequence_length row = len) y).

(** The contract of [random.sample(population, k)]: [k] entries of the
    population chosen without replacement, in some order; ValueError when the
    sample is larger than the population. *)
Definition sample_contract {rng}
    (random_sample : list nat → nat → rng → result (list nat * rng)) : Prop :=
  ∀ population k g,
    match random_sample population k g with
    | Ok (selection, _) =>
        (k ≤ length population)%nat ∧ length selection = k ∧
        selection ⊆+ population
    | Raise e => (length population < k)%nat ∧ e = ValueError
    end.

Section Sampler.
Context {glyph rng : Type}.
Variable imresize : glyph → Q → raster.
Variable random_sample : list nat → nat → rng → result (list nat * rng).

(** The arrays under construction and the generator state. [drawn] is a
    ghost log of the selections, one per sample, in the order drawn. *)
Record state := State {
  X : list raster;
  y : list (list Z);
  drawn : list (list nat);
  gen : rng
}.

(** The body of the inner loop, lines 253-257. *)
Definition draw_sample (data : list glyph) (labels : list Z)
    (i j : nat) (s : state) : result state :=
  r <- random_sample (range 0 (length data)) i (gen s) ;;
  let selection := r.1 in
  images <- gather data selection ;;
  canvas <- concat_images imresize images ;;
  X' <- setitem (X s) j canvas ;;
  sel_labels <- gather labels selection ;;
  y' <- setitem (y s) j (to_int32 <$> concat_labels sel_labels 5) ;;
  Ok {| X := X'; y := y'; drawn := drawn s ++ [selection]; gen := r.2 |}.

(** The inner loop, lines 250-257: the samples of [i] digits. *)
Definition fill_group (data : list glyph) (labels : list Z)
    (n_samples i : nat) (s : state) : result state :=
  for_each (λ j s, draw_sample data labels i j s)
    (range ((i - 1) * n_samples) (i * n_samples)) s.

Definition generate_loop (data : list glyph) (labels : list Z) (n : nat)
    (g : rng) : result state :=
  let X := replicate n (zeros (Z.to_nat height) (Z.to_nat width)) in
  let y := replicate n (replicate max_digits 0) in
  let n_samples := (n / max_digits)%nat in
  for_each (λ i s, fill_group data labels n_samples i s)
    (range 1 (max_digits + 1))
    {| X := X; y := y; drawn := []; gen := g |}.

Definition generate_digit_sequences (data : list glyph) (labels : list Z)
    (n : nat) (g : rng)
  : result (list (list (list (list byte))) * list (list Z) * rng) :=
  s <- generate_loop data labels n g ;;
  Ok (expand_dims (X s), y s, gen s).

(** Row [j] holds the sample composed from the selection [sel]. *)
Definition sample_at (data : list glyph) (labels : list Z) (s : state)
    (j : nat) (sel : list nat) : Prop :=
  ∃ images sel_labels canvas,
    gather data sel = Ok images ∧
    gather labels sel = Ok sel_labels ∧
    concat_images imresize images = Ok canvas ∧
    X s !! j = Some canvas ∧
    y s !! j = Some (to_int32 <$> concat_labels sel_labels 5).

(** The state once the first [k] rows of a dataset of [n] rows have been
    drawn: row [j < k] holds a sample of [j / n_samples + 1] glyphs of the
    corpus, and the rows from [k] on are as allocated. *)
Definition filled (data : list glyph) (labels : list Z) (n k : nat)
    (s : state) : Prop :=
  length (X s) = n ∧ length (y s) = n ∧ length (drawn s) = k ∧
  (∀ j sel, drawn s !! j = Some sel →
     length sel = S (j / (n / max_digits)) ∧
     sel ⊆+ range 0 (length data) ∧
     sample_at data labels s j sel) ∧
  (∀ j, (k ≤ j < n)%nat →
     X s !! j = Some (zeros (Z.to_nat height) (Z.to_nat width)) ∧
     y s !! j = Some (replicate max_digits 0)).
End Sampler.

Arguments State {rng} X y drawn gen.
Arguments X {rng} s.
Arguments y {rng} s.
Arguments drawn {rng} s.
Arguments gen {rng} s.

(** ** The compositor on a store of arrays

    The same two functions once more, with the arrays as objects in a store
    and every allocation and every write spelled out, to settle what the
    compositor does to the arrays it is handed. [np.zeros] and [imresize]
    return fresh arrays; the slice assignment and [new_label[i] = ...] write
    in place. *)

Module Heap.
Section Store.
Context {glyph : Type}.
Variable imresize : glyph → Q → raster.

Inductive array :=
| Glyphs (images : list glyph)
| Pixels (a : raster)
| Labels (l : list Z).

Abbreviation heap := (gmap nat array).

(** A fresh array, at an address that nothing allocated before has. *)
Definition alloc (v : array) (h : heap) : nat * heap :=
  let l := fresh (dom h) in (l, <[l:=v]> h).

Definition concat_images (images : nat) (h : heap) : result (nat * heap) :=
  match h !! images with
  | Some (Glyphs imgs) =>
      let num_digits := length imgs in
      let '(new_image, h) :=
        alloc (Pixels (zeros (Z.to_nat height) (Z.to_nat width))) h in
      h <- for_each (λ i h,
            match h !! images with
            | Some (Glyphs imgs) =>
                image <- getitem imgs i ;;
                let '(scaled, h) :=
                  alloc (Pixels (imresize image scale)) h in
                match h !! new_image, h !! scaled with
                | Some (Pixels a), Some (Pixels v) =>
                    a' <- setitem_slice a
                            (y_pad, height - y_pad)
                            (x_offset num_digits i,
                             x_offset num_digits i + new_width)
                            v ;;
                    Ok (<[new_image:=Pixels a']> h)
                | _, _ => Raise TypeError
                end
            | _ => Raise TypeError
            end)
          (range 0 num_digits) h ;;
      Ok (new_image, h)
  | _ => Raise TypeError
  end.

Definition concat_labels (labels : nat) (num_images : nat) (h : heap)
  : result (nat * heap) :=
  match h !! labels with
  | Some (Labels _) =>
      let '(new_label, h) := alloc (Labels (replicate num_images 0)) h in
      h <- for_each (λ i h,
            match h !! labels, h !! new_label with
            | Some (Labels ls), Some (Labels acc) =>
                Ok (<[new_label:=
                        Labels (match ls !! i with
                                | Some l => <[i:=l]> acc
                                | None => <[i:=10]> acc
                                end)]> h)
            | _, _ => Raise TypeError
            end)
          (range 0 num_images) h ;;
      Ok (new_label, h)
  | _ => Raise TypeError
  end.

(** A call that returns the address [r.1] and the store [r.2]: everything
    allocated before the call is as it was, and the result is a new array,
    holding [v]. *)
Definition returns_fresh (h : heap) (v : array) (r : nat * heap) : Prop :=
  h ⊆ r.2 ∧ h !! r.1 = None ∧ r.2 !! r.1 = Some v.

(** The addresses of the canvas and of the label vector, and the store
    after the two calls. *)
Definition compose (images labels : nat) (h : heap)
  : result (nat * nat * heap) :=
  r1 <- concat_images images h ;;
  r2 <- concat_labels labels 5 r1.2 ;;
  Ok (r1.1, r2.1, r2.2).
End Store.
End Heap.

(** ** Plotting

    [plot_images] draws with matplotlib; what it draws is the list of the
    calls it makes, in order. The calls made before an exception are not
    kept. The exceptions are those of the indexing in the function; what
    matplotlib raises of its own, as [imshow] does for a 3-D array that has
    not 3 or 4 channels, is outside the model, in which a call is an entry
    of the list. *)

(** An entry [img[i]] of the array that is plotted: a 2-D array (a glyph of
    the corpus) or a 3-D array (a canvas with its axis of channels). *)
Inductive entry (A : Type) :=
| Gray (a : list (list A))
| Channels (a : list (list (list A))).
Arguments Gray {A} a.
Arguments Channels {A} a.

(** [a.shape] for a 3-D array. *)
Definition shape3 {A} (a : list (list (list A))) : nat * nat * nat :=
  (length a,
   match a with
   | row :: _ => length row
   | [] => 0%nat
   end,
   match a with
   | (px :: _) :: _ => length px
   | _ => 0%nat
   end).

(** [f] on every entry in turn, leaving at the first exception. *)
Fixpoint map_result {A B} (f : A → result B) (l : list A) : result (list B) :=
  match l with
  | [] => Ok []
  | x :: l =>
      y <- f x ;;
      ys <- map_result f l ;;
      Ok (y :: ys)
  end.

(** [a[:, :, 0]] *)
Definition channel0 {A} (a : list (list (list A))) : result (list (list A)) :=
  map_result (map_result (λ px, getitem px 0)) a.

(** The calls to [plt]; [imshow] is always called with
    [interpolation='nearest']. *)
Inductive plt_call (A L : Type) :=
| figure (figsize : nat * nat)
| subplot (nrows ncols index : nat)
| imshow (img : entry A)
| xticks (ticks : list nat)
| yticks (ticks : list nat)
| title (label : L).
Arguments figure {A L} figsize.
Arguments subplot {A L} nrows ncols index.
Arguments imshow {A L} img.
Arguments xticks {A L} ticks.
Arguments yticks {A L} ticks.
Arguments title {A L} label.

(** The array handed to [imshow], lines 69-72: a canvas of shape
    [(64, 64, 1)] loses its axis of channels, anything else is shown as it
    is. The shape of a 2-D array is a pair, never [(64, 64, 1)]. *)
Definition shown {A} (e : entry A) : result (entry A) :=
  match e with
  | Channels a =>
      if decide (shape3 a = (64, 64, 1)%nat)
      then a' <- channel0 a ;; Ok (Gray a')
      else Ok (Channels a)
  | Gray a => Ok (Gray a)
  end.

Definition plot_images {A L} (img : list (entry A)) (labels : list L)
    (nrows ncols : nat) : result (list (plt_call A L)) :=
  for_each (λ i calls,
      e <- getitem img i ;;
      picture <- shown e ;;
      label <- getitem labels i ;;
      Ok (calls ++ [subplot nrows ncols (i + 1); imshow picture;
                    xticks []; yticks []; title label]))
    (range 0 (nrows * ncols))
    [figure (min 16 (ncols * 2), min 16 (nrows * 2))].

(** The calls for the panel of image [i]. *)
Definition panel {A L} (nrows ncols i : nat) (picture : entry A) (label : L)
  : list (plt_call A L) :=
  [subplot nrows ncols (i + 1); imshow picture; xticks []; yticks [];
   title label].

(** ** The validation set, lines 321-328 of the script *)

(** [np.delete(arr, obj, axis=0)] for indices inside the array: the rows
    whose index is not in [obj], in order. An index outside the array cannot
    reach [np.delete] here, [arr[obj]] having raised before. *)
Definition np_delete {A} (arr : list A) (obj : list nat) : list A :=
  omap (λ i, if decide (i ∈ obj) then None else arr !! i)
    (range 0 (length arr)).

(** The dtype of an array of indices. [np.array] gives a list of Python
    ints the dtype int64, and the empty list, which has no entry to go by,
    float64. *)
Inductive dtype := int64 | float64.

Definition dtype_of_ints (l : list nat) : dtype :=
  match l with
  | [] => float64
  | _ :: _ => int64
  end.

(** [arr[idx]] for an array of indices: an array of floats is no index,
    whatever its size. *)
Definition getitem_array {A} (arr : list A) (d : dtype) (idx : list nat)
  : result (list A) :=
  match d with
  | int64 => gather arr idx
  | float64 => Raise IndexError
  end.

(** The contract of [np.random.choice(population, size=k, replace=False)]
    for a population that is not empty: [k] entries of the population chosen
    without replacement, in some order; ValueError when more are asked for
    than the population has. Nothing is assumed for an empty population, on
    which the versions of numpy differ: the older raise ValueError, the newer
    return an empty array when none is asked for. *)
Definition choice_contract {rng}
    (random_choice : list nat → nat → rng → result (list nat * rng)) : Prop :=
  ∀ population k g, population ≠ [] →
    match random_choice population k g with
    | Ok (selection, _) =>
        (k ≤ length population)%nat ∧ length selection = k ∧
        selection ⊆+ population
    | Raise e => (length population < k)%nat ∧ e = ValueError
    end.

Section Validation.
Context {A B rng : Type}.
(** [np.random.choice(population, size=k, replace=False)]. What it returns
    are entries of [np.array(population)], in an array of that dtype. *)
Variable random_choice : list nat → nat → rng → result (list nat * rng).
(** [int(n * 0.20)]: a floating-point product, truncated. *)
Variable fifth : nat → nat.

Definition validation_split (X_test : list A) (y_test : list B) (g : rng)
  : result (list A * list B * list A * list B * rng) :=
  let population := range 0 (length X_test) in
  r <- random_choice population (fifth (length X_test)) g ;;
  let idx := r.1 in
  let d := dtype_of_ints population in
  X_val <- getitem_array X_test d idx ;;
  y_val <- getitem_array y_test d idx ;;
  let X_test' := np_delete X_test idx in
  let y_test' := np_delete y_test idx in
  Ok (X_val, y_val, X_test', y_test', r.2).
End Validation.

(** ** A corpus and a sampler to run the code on *)

Module Run.
(** A glyph of one shade: it scales to a 12x12 block of that shade. *)
Definition flat_resize (shade : byte) (_ : Q) : raster :=
  replicate 12 (replicate 12 shade).

(** A stand-in for [random.sample] that meets its contract: the first [k]
    entries of the population rotated by the generator state. *)
Definition rotating_sample (population : list nat) (k : nat) (g : nat)
  : result (list nat * nat) :=
  if decide (k ≤ length population)%nat
  then Ok (take k (rotate g population), S g)
  else Raise ValueError.

Definition corpus : list byte := [x01; x02; x03; x04; x05; x06; x07].
Definition corpus_labels : list Z := [3; 1; 4; 1; 5; 9; 2].

(** Two stores that hold the same two glyphs and the same two labels, at
    different addresses and among different arrays. *)
Definition store1 : gmap nat (@Heap.array byte) :=
  <[0%nat:=Heap.Glyphs [x01; x02]]> (<[1%nat:=Heap.Labels [7; 8]]> ∅).
Definition store2 : gmap nat (@Heap.array byte) :=
  <[3%nat:=Heap.Glyphs [x01; x02]]>
    (<[0%nat:=Heap.Labels [7; 8]]> (<[1%nat:=Heap.Pixels [[xff]]]> ∅)).

(** [int(n * 0.20)] for the sizes at hand. *)
Definition fifth (n : nat) : nat := (n / 5)%nat.

(** A glyph that scales to 13 x 13, and one that scales to a single pixel. *)
Definition odd_resize (shade : byte) (_ : Q) : raster :=
  if Byte.eqb shade xff then replicate 13 (replicate 13 shade)
  else replicate 12 (replicate 12 shade).
Definition dot_resize (shade : byte) (_ : Q) : raster := [[shade]].
End Run.

(** * Properties *)

(** ** Loops in the error monad *)

Lemma for_each_app {St} (body : nat → St → result St) idx1 idx2 s :
  for_each body (idx1 ++ idx2) s =
  (s' <- for_each body idx1 s ;; for_each body idx2 s').
Proof.
  revert s. induction idx1 as [|i idx1 IH]; intros s; simpl; [done|].
  destruct (body i s); simpl; auto.
Qed.

Lemma range_snoc a b : (a ≤ b)%nat → range a (S b) = range a b ++ [b].
Proof.
  intros Hab. unfold range.
  replace (S b - a)%nat with (S (b - a)) by lia.
  rewrite seq_S. do 2 f_equal. lia.
Qed.

Lemma range_split a b c :
  (a ≤ b ≤ c)%nat → range a c = range a b ++ range b c.
Proof.
  intros Habc. unfold range.
  replace (c - a)%nat with ((b - a) + (c - b))%nat by lia.
  rewrite seq_app. do 2 f_equal. lia.
Qed.

Lemma elem_of_range a b i : i ∈ range a b ↔ (a ≤ i < b)%nat.
Proof. unfold range. rewrite elem_of_seq. lia. Qed.

(** The loop rule: an invariant indexed by the loop counter, established
    before the loop and carried by every iteration, holds after it, and the
    loop raises nothing. *)
Lemma for_each_range_inv {St} (Inv : nat → St → Prop)
    (body : nat → St → result St) a b s :
  (a ≤ b)%nat →
  Inv a s →
  (∀ k s, (a ≤ k < b)%nat → Inv k s → ∃ s', body k s = Ok s' ∧ Inv (S k) s') →
  ∃ s', for_each body (range a b) s = Ok s' ∧ Inv b s'.
Proof.
  intros Hab H0 Hstep. induction b as [|b IH].
  - assert (a = 0%nat) as -> by lia. exists s. by split.
  - destruct (decide (a = S b)) as [->|Hne].
    + exists s. unfold range. rewrite Nat.sub_diag. by split.
    + destruct IH as (s1 & Hrun & Hinv); [lia|intros; apply Hstep; [lia|done]|].
      destruct (Hstep b s1) as (s2 & Hb & Hinv2); [lia|done|].
      exists s2. split; [|done].
      rewrite range_snoc, for_each_app, Hrun by lia. simpl. by rewrite Hb.
Qed.

(** A property carried by every iteration that returns holds of the final
    state of a loop that returns. *)
Lemma for_each_preserves {St} (P : St → Prop) (body : nat → St → result St) idx :
  (∀ i s s', i ∈ idx → P s → body i s = Ok s' → P s') →
  ∀ s s', P s → for_each body idx s = Ok s' → P s'.
Proof.
  induction idx as [|i idx IH]; intros Hbody s s' Hs Hrun; simpl in Hrun.
  - by inversion Hrun; subst.
  - destruct (body i s) as [s1|e] eqn:Hi; simpl in Hrun; [|done].
    eapply IH; [|eapply (Hbody i s s1); [left|done..]|done].
    intros j t t' Hj. apply Hbody. by right.
Qed.

(** A loop raises when one of its iterations raises from every state that
    satisfies [P]; the exception satisfies [E] when every exception an
    iteration can raise does, [P] being kept by the iterations that return. *)
Lemma for_each_raises {St} (P : St → Prop) (E : exception → Prop)
    (body : nat → St → result St) idx i :
  i ∈ idx →
  (∀ s, P s → ∃ e, body i s = Raise e) →
  (∀ j s, j ∈ idx → P s →
     match body j s with Ok s' => P s' | Raise e => E e end) →
  ∀ s, P s → ∃ e, for_each body idx s = Raise e ∧ E e.
Proof.
  intros Hi Hfail Hall. induction idx as [|j idx IH]; intros s Hs.
  - by apply elem_of_nil in Hi.
  - simpl. pose proof (Hall j s ltac:(left) Hs) as Hj.
    destruct (body j s) as [s1|e] eqn:Hbody; simpl; [|by exists e].
    apply elem_of_cons in Hi as [->|Hi].
    + destruct (Hfail s Hs) as [e He]. congruence.
    + apply IH; [done| |done]. intros k t Hk. apply Hall. by right.
Qed.

(** A property that the iterations keep when they return, every exception
    they raise being in [E]: it holds of the final state, or the exception
    of the loop is in [E]. *)
Lemma for_each_outcome {St} (P : St → Prop) (E : exception → Prop)
    (body : nat → St → result St) idx :
  (∀ j s, j ∈ idx → P s →
     match body j s with Ok s' => P s' | Raise e => E e end) →
  ∀ s, P s →
    match for_each body idx s with Ok s' => P s' | Raise e => E e end.
Proof.
  induction idx as [|j idx IH]; intros Hbody s Hs; simpl; [done|].
  pose proof (Hbody j s ltac:(left) Hs) as Hj.
  destruct (body j s) as [s1|e]; simpl; [|done].
  apply IH; [|done]. intros k t Hk. apply Hbody. by right.
Qed.

(** ** Slices *)

Lemma slice_indices_inside start stop len :
  0 ≤ start → start ≤ stop → stop ≤ Z.of_nat len →
  slice_indices start stop len = (Z.to_nat start, Z.to_nat (stop - start)).
Proof.
  intros. unfold slice_indices, adjust_index.
  repeat case_decide; try lia. f_equal; lia.
Qed.

(** A slice never selects more than the axis holds. *)
Lemma slice_indices_fit start stop len :
  ((slice_indices start stop len).1 + (slice_indices start stop len).2 ≤ len)%nat.
Proof. unfold slice_indices, adjust_index. simpl. repeat case_decide; lia. Qed.

(** ** Arrays *)

Lemma has_shape_zeros h w : has_shape h w (zeros h w).
Proof.
  split; [apply length_replicate|].
  apply Forall_replicate, length_replicate.
Qed.

Lemma has_shape_ncols h w a : has_shape h w a → (0 < h)%nat → ncols a = w.
Proof.
  intros [Hh Hw] Hpos. destruct a as [|row a]; simpl in *; [lia|].
  by inversion Hw.
Qed.

Lemma pixel_zeros h w r c :
  (r < h)%nat → (c < w)%nat → pixel (zeros h w) r c = Some x00.
Proof.
  intros Hr Hc. unfold pixel, zeros.
  rewrite lookup_replicate_2 by done. simpl. by apply lookup_replicate_2.
Qed.

Lemma pixel_is_Some h w a r c :
  has_shape h w a → (r < h)%nat → (c < w)%nat → is_Some (pixel a r c).
Proof.
  intros [Hh Hw] Hr Hc. unfold pixel.
  destruct (lookup_lt_is_Some_2 a r) as [row Hrow]; [lia|].
  rewrite Hrow. simpl. apply lookup_lt_is_Some_2.
  rewrite Forall_lookup in Hw. by rewrite (Hw _ _ Hrow).
Qed.

Lemma has_shape_paste h w a r0 c0 bh bw v :
  has_shape h w a → has_shape h w (paste a r0 c0 bh bw v).
Proof.
  intros [Hh Hw]. split; unfold paste.
  - by rewrite length_imap.
  - rewrite Forall_lookup in Hw. apply Forall_lookup. intros r row.
    rewrite list_lookup_imap. destruct (a !! r) as [row0|] eqn:Hr; [|done].
    simpl. intros [= <-]. case_decide; [rewrite length_imap|]; eauto.
Qed.

(** What a pixel holds after a block has been pasted. *)
Lemma pixel_paste a r0 c0 bh bw v r c :
  pixel (paste a r0 c0 bh bw v) r c =
  if decide ((r0 ≤ r < r0 + bh)%nat ∧ (c0 ≤ c < c0 + bw)%nat)
  then px ← pixel a r c; Some (default px (pixel v (r - r0) (c - c0)))
  else pixel a r c.
Proof.
  unfold pixel at 1 3 4, paste. rewrite list_lookup_imap.
  destruct (a !! r) as [row|]; simpl; [|by case_decide].
  destruct (decide (r0 ≤ r < r0 + bh)%nat) as [Hr|Hr].
  - rewrite list_lookup_imap. destruct (row !! c) as [px|]; simpl.
    + repeat case_decide; try done; tauto.
    + by case_decide.
  - case_decide; [tauto|done].
Qed.

Lemma stretch_same {A} n (l : list A) : length l = n → stretch n l = Some l.
Proof. intros Hl. unfold stretch. by case_decide. Qed.

Lemma broadcast_to_same h w v : has_shape h w v → broadcast_to h w v = Some v.
Proof.
  intros [Hh Hw]. unfold broadcast_to. rewrite stretch_same by done. simpl.
  apply mapM_Some. clear Hh. induction Hw; constructor; auto using stretch_same.
Qed.

(** A block of 12 columns does not broadcast to any other positive width,
    nor to none. *)
Lemma broadcast_to_width h w v :
  has_shape 12 12 v → w ≠ 12%nat → broadcast_to h w v = None.
Proof.
  intros [Hh Hw] Hne. unfold broadcast_to.
  destruct (stretch h v) as [rows|] eqn:Hrows; simpl; [|done].
  apply mapM_None, Exists_exists.
  assert (∃ row, row ∈ rows ∧ length row = 12%nat) as (row & Hin & Hlen).
  { unfold stretch in Hrows. case_decide.
    - inversion Hrows; subst rows.
      destruct v as [|row v]; [done|]. exists row. split; [left|].
      by inversion Hw.
    - do 2 (destruct v as [|? v]; try done). }
  exists row. split; [done|]. unfold stretch.
  case_decide; [lia|]. by do 2 (destruct row as [|? row]; try done).
Qed.

Lemma pixel_paste_inside h w a r0 c0 bh bw v r c :
  has_shape h w a → has_shape bh bw v →
  (r0 + bh ≤ h)%nat → (c0 + bw ≤ w)%nat → (r < bh)%nat → (c < bw)%nat →
  pixel (paste a r0 c0 bh bw v) (r0 + r) (c0 + c) = pixel v r c.
Proof.
  intros Ha Hv Hrows Hcols Hr Hc. rewrite pixel_paste, decide_True by lia.
  destruct (pixel_is_Some _ _ a (r0 + r) (c0 + c) Ha) as [px ->]; [lia..|].
  simpl. replace (r0 + r - r0)%nat with r by lia.
  replace (c0 + c - c0)%nat with c by lia.
  by destruct (pixel_is_Some _ _ v r c Hv) as [px' ->].
Qed.

Lemma pixel_paste_outside a r0 c0 bh bw v r c :
  ¬ ((r0 ≤ r < r0 + bh)%nat ∧ (c0 ≤ c < c0 + bw)%nat) →
  pixel (paste a r0 c0 bh bw v) r c = pixel a r c.
Proof. intros Hout. by rewrite pixel_paste, decide_False. Qed.

(** ** The geometry of the canvas *)

Lemma y_pad_eq : y_pad = 26.
Proof. reflexivity. Qed.

Lemma x_pad_eq num : x_pad num = 32 - 6 * Z.of_nat num.
Proof.
  unfold x_pad, width, new_width.
  replace (64 - Z.of_nat num * 12) with ((32 - 6 * Z.of_nat num) * 2) by lia.
  by rewrite Z.div_mul.
Qed.

Lemma x_offset_eq num i :
  x_offset num i = 32 - 6 * Z.of_nat num + 12 * Z.of_nat i.
Proof. unfold x_offset, new_width. rewrite x_pad_eq. lia. Qed.

Lemma glyph_rows_eq :
  glyph_rows = (Z.to_nat y_pad, Z.to_nat new_height).
Proof. reflexivity. Qed.

(** With at most five glyphs every slice lies inside the canvas, so numpy
    neither wraps nor clips it. *)
Lemma glyph_cols_eq num i :
  (num ≤ 5)%nat → (i < num)%nat →
  glyph_cols num i = (Z.to_nat (x_offset num i), Z.to_nat new_width).
Proof.
  intros Hnum Hi. unfold glyph_cols.
  rewrite slice_indices_inside; rewrite ?x_offset_eq; unfold width, new_width;
    try lia.
  f_equal. lia.
Qed.

(** The slice assignment on a canvas of the right shape, in terms of the
    rows and columns selected. *)
Lemma setitem_slice_canvas a num i v :
  has_shape (Z.to_nat height) (Z.to_nat width) a →
  setitem_slice a (y_pad, height - y_pad)
    (x_offset num i, x_offset num i + new_width) v =
  match broadcast_to glyph_rows.2 (glyph_cols num i).2 v with
  | Some v' =>
      Ok (paste a glyph_rows.1 (glyph_cols num i).1
            glyph_rows.2 (glyph_cols num i).2 v')
  | None => Raise ValueError
  end.
Proof.
  intros Ha. unfold setitem_slice. simpl.
  rewrite (has_shape_ncols _ _ _ Ha) by (unfold height; lia).
  unfold nrows, glyph_rows, glyph_cols. destruct Ha as [-> _].
  done.
Qed.

Section CompositorFacts.
Context {glyph : Type}.
Variable imresize : glyph → Q → raster.

Abbreviation scaled_to_footprint := (scaled_to_footprint imresize).
Abbreviation placed := (placed imresize).

Lemma placed_start images :
  placed images 0 (zeros (Z.to_nat height) (Z.to_nat width)).
Proof.
  split; [apply has_shape_zeros|]. split.
  - intros; lia.
  - intros r c Hr Hc _. by apply pixel_zeros.
Qed.

Lemma placed_step images k canvas :
  (length images ≤ 5)%nat → (k < length images)%nat →
  scaled_to_footprint images →
  placed images k canvas →
  ∃ canvas',
    (image <- getitem images k ;;
     setitem_slice canvas (y_pad, height - y_pad)
       (x_offset (length images) k, x_offset (length images) k + new_width)
       (imresize image scale)) = Ok canvas' ∧
    placed images (S k) canvas'.
Proof.
  intros Hnum Hk Hscaled (Hshape & Hglyphs & Hback).
  destruct (lookup_lt_is_Some_2 images k Hk) as [img Himg].
  unfold getitem. rewrite Himg. simpl.
  assert (Hv : has_shape 12 12 (imresize img scale)).
  { unfold scaled_to_footprint in Hscaled. rewrite Forall_lookup in Hscaled.
    apply (Hscaled _ _ Himg). }
  rewrite setitem_slice_canvas, glyph_rows_eq, glyph_cols_eq by done.
  simpl. change (Z.to_nat new_height) with 12%nat.
  change (Z.to_nat new_width) with 12%nat.
  rewrite broadcast_to_same by done.
  eexists. split; [done|].
  split; [by apply has_shape_paste|]. split.
  - intros i img' r c Hi Himg' Hr Hc.
    change (Z.to_nat new_height) with 12%nat in *.
    change (Z.to_nat new_width) with 12%nat in *.
    destruct (decide (i = k)) as [->|Hne].
    + assert (img' = img) as -> by congruence.
      eapply pixel_paste_inside; [exact Hshape|exact Hv|..|done|done];
        rewrite ?x_offset_eq, ?y_pad_eq; unfold height, width; lia.
    + rewrite pixel_paste_outside; [by apply Hglyphs; try lia|].
      rewrite !x_offset_eq, y_pad_eq. lia.
  - intros r c Hr Hc Hout.
    rewrite y_pad_eq, x_pad_eq in Hout. unfold new_height, new_width in Hout.
    rewrite pixel_paste_outside; [|rewrite x_offset_eq, y_pad_eq; lia].
    apply Hback; [done..|]. rewrite y_pad_eq, x_pad_eq.
    unfold new_height, new_width. lia.
Qed.

(** With at most five glyphs, each scaling to 12 x 12, [concat_images]
    raises nothing and returns the canvas with every glyph in place. *)
Lemma concat_images_placed images :
  (length images ≤ 5)%nat →
  scaled_to_footprint images →
  ∃ canvas,
    concat_images imresize images = Ok canvas ∧
    placed images (length images) canvas.
Proof.
  intros Hnum Hscaled. unfold concat_images.
  apply (for_each_range_inv (placed images)); [lia|apply placed_start|].
  intros k canvas Hk Hplaced. apply placed_step; [done|lia|done..].
Qed.
End CompositorFacts.

(** Whatever the glyphs scale to, the compositor returns a canvas of the
    shape allocated or raises ValueError. *)
Lemma concat_images_outcome {glyph} (imresize : glyph → Q → raster)
    (images : list glyph) :
  match concat_images imresize images with
  | Ok canvas => has_shape (Z.to_nat height) (Z.to_nat width) canvas
  | Raise e => e = ValueError
  end.
Proof.
  unfold concat_images.
  apply (for_each_outcome
           (has_shape (Z.to_nat height) (Z.to_nat width))
           (λ e, e = ValueError)); [|apply has_shape_zeros].
  intros j a Hj Ha. apply elem_of_range in Hj.
  destruct (lookup_lt_is_Some_2 images j) as [img Himg]; [lia|].
  unfold getitem. rewrite Himg. cbn [bind].
  rewrite setitem_slice_canvas by done.
  destruct (broadcast_to _ _ _); [by apply has_shape_paste|done].
Qed.

(** ** The label vector *)

Lemma concat_labels_loop (labels : list Z) k (acc : list Z) j :
  foldl (λ new_label i,
      match labels !! i with
      | Some l => <[i:=l]> new_label
      | None => <[i:=10]> new_label
      end) acc (seq 0 k) !! j =
  if decide (j < k)%nat
  then (if decide (j < length acc)%nat
        then Some (default 10 (labels !! j)) else None)
  else acc !! j.
Proof.
  revert j. induction k as [|k IH]; intros j.
  - done.
  - rewrite seq_S, foldl_snoc. simpl.
    set (prev := foldl _ acc (seq 0 k)) in *.
    assert (Hlen : length prev = length acc).
    { unfold prev. clear. generalize (seq 0 k). intros idx. revert acc.
      induction idx as [|i idx IHidx]; intros acc; simpl; [done|].
      rewrite IHidx. destruct (labels !! i); apply length_insert. }
    destruct (decide (j = k)) as [->|Hne].
    + rewrite decide_True by lia.
      destruct (decide (k < length acc)%nat).
      * destruct (labels !! k); simpl;
          by rewrite list_lookup_insert_eq by (rewrite Hlen; lia).
      * destruct (labels !! k); simpl;
          (rewrite list_insert_ge by (rewrite Hlen; lia));
          apply lookup_ge_None; rewrite Hlen; lia.
    + transitivity (prev !! j).
      { destruct (labels !! k); by rewrite list_lookup_insert_ne. }
      rewrite IH. repeat case_decide; try done; lia.
Qed.

(** [concat_labels] keeps the first [num_images] labels and fills the slots
    that are left with 10. *)
Lemma concat_labels_eq labels num_images :
  concat_labels labels num_images =
  take num_images labels ++ replicate (num_images - length labels) 10.
Proof.
  apply list_eq. intros j. unfold concat_labels, range.
  rewrite Nat.sub_0_r, concat_labels_loop, length_replicate.
  case_decide as Hj.
  - destruct (decide (j < length labels)%nat) as [Hl|Hl].
    + rewrite lookup_app_l by (rewrite length_take; lia).
      rewrite lookup_take_lt by done.
      by destruct (lookup_lt_is_Some_2 labels j Hl) as [l ->].
    + rewrite lookup_app_r by (rewrite length_take; lia).
      rewrite length_take, lookup_replicate_2 by lia.
      by rewrite lookup_ge_None_2 by lia.
  - rewrite (proj1 (lookup_replicate_None _ _ _)) by lia.
    symmetry. apply lookup_ge_None_2.
    rewrite length_app, length_take, length_replicate. lia.
Qed.

Lemma length_concat_labels labels num_images :
  length (concat_labels labels num_images) = num_images.
Proof.
  rewrite concat_labels_eq, length_app, length_take, length_replicate. lia.
Qed.


(** ** More glyphs than the canvas holds *)

(** The slice of the last of more than five glyphs is clipped at the right
    edge of the canvas, or empty: it is narrower than a glyph. *)
Lemma glyph_cols_last_clipped num :
  (5 < num)%nat → ((glyph_cols num (num - 1)).2 < 12)%nat.
Proof.
  intros Hnum. unfold glyph_cols, slice_indices. simpl.
  rewrite x_offset_eq. unfold adjust_index, width, new_width.
  repeat case_decide; lia.
Qed.

Section CompositorRaises.
Context {glyph : Type}.
Variable imresize : glyph → Q → raster.

Lemma concat_images_too_many images :
  (5 < length images)%nat →
  scaled_to_footprint imresize images →
  concat_images imresize images = Raise ValueError.
Proof.
  intros Hnum Hscaled. unfold concat_images.
  destruct (for_each_raises
    (has_shape (Z.to_nat height) (Z.to_nat width)) (λ e, e = ValueError)
    (λ i new_image,
       image <- getitem images i ;;
       setitem_slice new_image (y_pad, height - y_pad)
         (x_offset (length images) i,
          x_offset (length images) i + new_width)
         (imresize image scale))
    (range 0 (length images)) (length images - 1)%nat)
    with (s := zeros (Z.to_nat height) (Z.to_nat width))
    as (e & Hrun & ->); [| | |apply has_shape_zeros|done].
  - apply elem_of_range. lia.
  - intros a Ha.
    destruct (lookup_lt_is_Some_2 images (length images - 1)) as [img Himg];
      [lia|].
    unfold getitem. rewrite Himg. simpl.
    rewrite setitem_slice_canvas by done.
    rewrite broadcast_to_width; [by eexists| |].
    + unfold scaled_to_footprint in Hscaled.
      rewrite Forall_lookup in Hscaled. apply (Hscaled _ _ Himg).
    + pose proof (glyph_cols_last_clipped (length images) Hnum). lia.
  - intros j a Hj Ha. apply elem_of_range in Hj.
    destruct (lookup_lt_is_Some_2 images j) as [img Himg]; [lia|].
    unfold getitem. rewrite Himg. simpl.
    rewrite setitem_slice_canvas by done.
    destruct (broadcast_to _ _ _); [by apply has_shape_paste|done].
Qed.
End CompositorRaises.

(** ** The stand-ins meet their contracts *)

Lemma flat_resize_footprint images :
  scaled_to_footprint Run.flat_resize images.
Proof.
  apply Forall_forall. intros shade _. split; [done|].
  apply Forall_replicate, length_replicate.
Qed.

(** ** The compositor: what [compose] returns *)

Lemma compose_placed {glyph} (imresize : glyph → Q → raster) images labels :
  (length images ≤ max_digits)%nat →
  scaled_to_footprint imresize images →
  ∃ canvas,
    compose imresize images labels = Ok (canvas, concat_labels labels 5) ∧
    placed imresize images (length images) canvas.
Proof.
  intros Hnum Hscaled.
  destruct (concat_images_placed imresize images Hnum Hscaled)
    as (canvas & Hrun & Hplaced).
  exists canvas. split; [|done]. unfold compose. by rewrite Hrun.
Qed.

(** C1. For 1 to [max_digits] glyphs with as many labels, [compose] returns
    a canvas of exactly 64 x 64 and a label vector of exactly [max_digits]
    slots: the input labels in order, then the filler 10 in every slot that
    is left. *)
Theorem compose_shape_and_labels {glyph} (imresize : glyph → Q → raster)
    (images : list glyph) (labels : list Z) :
  (1 ≤ length images ≤ max_digits)%nat →
  length images = length labels →
  scaled_to_footprint imresize images →
  ∃ canvas label,
    compose imresize images labels = Ok (canvas, label) ∧
    has_shape 64 64 canvas ∧
    length label = max_digits ∧
    take (length images) label = labels ∧
    drop (length images) label =
      replicate (max_digits - length images) 10.
Proof.
  intros [_ Hnum] Hlen Hscaled.
  destruct (compose_placed imresize images labels Hnum Hscaled)
    as (canvas & Hrun & Hshape & _).
  exists canvas, (concat_labels labels 5). split; [done|].
  split; [done|]. split; [apply length_concat_labels|].
  rewrite concat_labels_eq, Hlen. unfold max_digits in *.
  rewrite (take_ge labels 5) by lia.
  by rewrite take_app_length, drop_app_length.
Qed.

Lemma compose_shape_and_labels_witness :
  ((1 ≤ length [x01; x02] ≤ max_digits)%nat ∧
   length [x01; x02] = length [7; 8]) ∧
  ∃ canvas label,
    compose Run.flat_resize [x01; x02] [7; 8] = Ok (canvas, label) ∧
    has_shape 64 64 canvas ∧
    length label = max_digits ∧
    take 2 label = [7; 8] ∧
    drop 2 label = replicate (max_digits - 2) 10.
Proof.
  split; [by vm_compute; repeat split; lia|].
  apply (compose_shape_and_labels Run.flat_resize [x01; x02] [7; 8]).
  - simpl. unfold max_digits. lia.
  - reflexivity.
  - apply flat_resize_footprint.
Defined.

(** C3. For 1 to [max_digits] glyphs, the slice that receives glyph [i] is
    exactly the rows [y_pad, y_pad + new_height) and the columns
    [x_pad + i * new_width, x_pad + (i + 1) * new_width), with
    [y_pad = (height - new_height) / 2] and
    [x_pad = (width - num * new_width) / 2] under floor division, and the
    canvas that [compose] returns holds the scaled glyph there; a single
    glyph has 26 pixels of padding above, below, left and right. *)
Theorem glyph_placement {glyph} (imresize : glyph → Q → raster)
    (images : list glyph) (labels : list Z) :
  (1 ≤ length images ≤ max_digits)%nat →
  scaled_to_footprint imresize images →
  let num := length images in
  y_pad = (height - new_height) `div` 2 ∧
  x_pad num = (width - Z.of_nat num * new_width) `div` 2 ∧
  glyph_rows = (Z.to_nat y_pad, Z.to_nat new_height) ∧
  (∀ i, (i < num)%nat →
     glyph_cols num i =
       (Z.to_nat (x_pad num + Z.of_nat i * new_width), Z.to_nat new_width)) ∧
  (∃ canvas label,
     compose imresize images labels = Ok (canvas, label) ∧
     ∀ i img r c,
       images !! i = Some img →
       (r < Z.to_nat new_height)%nat → (c < Z.to_nat new_width)%nat →
       pixel canvas (Z.to_nat y_pad + r)
         (Z.to_nat (x_pad num + Z.of_nat i * new_width) + c) =
       pixel (imresize img scale) r c) ∧
  (num = 1%nat →
     y_pad = 26 ∧ height - (y_pad + new_height) = 26 ∧
     x_pad num = 26 ∧ width - (x_pad num + new_width) = 26).
Proof.
  intros [_ Hnum] Hscaled num.
  split; [done|]. split; [done|]. split; [done|]. split; [|split].
  - intros i Hi. by apply glyph_cols_eq.
  - destruct (compose_placed imresize images labels Hnum Hscaled)
      as (canvas & Hrun & _ & Hglyphs & _).
    exists canvas, (concat_labels labels 5). split; [done|].
    intros i img r c Himg Hr Hc.
    apply Hglyphs; [|done..]. by eapply lookup_lt_Some.
  - intros ->. done.
Qed.

Lemma glyph_placement_witness :
  ∃ canvas label,
    compose Run.flat_resize [x07] [7] = Ok (canvas, label) ∧
    ∀ i img r c,
      [x07] !! i = Some img →
      (r < Z.to_nat new_height)%nat → (c < Z.to_nat new_width)%nat →
      pixel canvas (Z.to_nat y_pad + r)
        (Z.to_nat (x_pad 1 + Z.of_nat i * new_width) + c) =
      pixel (Run.flat_resize img scale) r c.
Proof.
  apply (glyph_placement Run.flat_resize [x07] [7]).
  - simpl. unfold max_digits. lia.
  - apply flat_resize_footprint.
Defined.

(** C10. For 1 to [max_digits] glyphs, every pixel of the canvas that
    [compose] returns outside the rows [y_pad, y_pad + new_height) and the
    columns [x_pad, x_pad + num * new_width) is the background 0. *)
Theorem background_outside_glyphs {glyph} (imresize : glyph → Q → raster)
    (images : list glyph) (labels : list Z) :
  (1 ≤ length images ≤ max_digits)%nat →
  scaled_to_footprint imresize images →
  let num := length images in
  ∃ canvas label,
    compose imresize images labels = Ok (canvas, label) ∧
    ∀ r c,
      (r < Z.to_nat height)%nat → (c < Z.to_nat width)%nat →
      ¬ (y_pad ≤ Z.of_nat r < y_pad + new_height ∧
         x_pad num ≤ Z.of_nat c < x_pad num + Z.of_nat num * new_width) →
      pixel canvas r c = Some x00.
Proof.
  intros [_ Hnum] Hscaled num.
  destruct (compose_placed imresize images labels Hnum Hscaled)
    as (canvas & Hrun & _ & _ & Hback).
  by exists canvas, (concat_labels labels 5).
Qed.

Lemma background_outside_glyphs_witness :
  ∃ canvas label,
    compose Run.flat_resize [x01; x02; x03] [3; 1; 4] = Ok (canvas, label) ∧
    ∀ r c,
      (r < Z.to_nat height)%nat → (c < Z.to_nat width)%nat →
      ¬ (y_pad ≤ Z.of_nat r < y_pad + new_height ∧
         x_pad 3 ≤ Z.of_nat c < x_pad 3 + Z.of_nat 3 * new_width) →
      pixel canvas r c = Some x00.
Proof.
  apply (background_outside_glyphs Run.flat_resize [x01; x02; x03] [3; 1; 4]).
  - simpl. unfold max_digits. lia.
  - apply flat_resize_footprint.
Defined.

(** C8. For 1 to [width / new_width] glyphs, the columns written for glyph
    [i] are [x_pad + i * new_width, x_pad + (i + 1) * new_width), and the
    columns written for two distinct glyphs have no index in common. *)
Theorem glyph_columns_disjoint (num i j : nat) :
  (1 ≤ num ≤ Z.to_nat (width `div` new_width))%nat →
  (i < num)%nat → (j < num)%nat → i ≠ j →
  glyph_cols num i =
    (Z.to_nat (x_pad num + Z.of_nat i * new_width), Z.to_nat new_width) ∧
  glyph_cols num j =
    (Z.to_nat (x_pad num + Z.of_nat j * new_width), Z.to_nat new_width) ∧
  ∀ c, ¬ (in_slice (glyph_cols num i) c ∧ in_slice (glyph_cols num j) c).
Proof.
  intros [_ Hnum] Hi Hj Hne.
  change (Z.to_nat (width `div` new_width)) with 5%nat in Hnum.
  split; [by apply glyph_cols_eq|]. split; [by apply glyph_cols_eq|].
  intros c. rewrite !glyph_cols_eq by done. unfold in_slice. simpl.
  rewrite !x_offset_eq. unfold new_width. lia.
Qed.

Lemma glyph_columns_disjoint_witness :
  glyph_cols 5 1 = (14%nat, 12%nat) ∧
  glyph_cols 5 4 = (50%nat, 12%nat) ∧
  ∀ c, ¬ (in_slice (glyph_cols 5 1) c ∧ in_slice (glyph_cols 5 4) c).
Proof.
  apply (glyph_columns_disjoint 5 1 4); [vm_compute; lia|lia|lia|lia].
Defined.

(** C4, as the code has it. [compose] validates nothing. Without images it
    returns the blank canvas, and whatever the number of labels it returns
    for up to [max_digits] images, the label vector being the first five
    labels padded with 10; with more than [max_digits] images it raises
    numpy's ValueError, the block of the last glyph being clipped. The glyphs
    are taken to scale to 12 x 12. *)
Theorem compose_failure_cases {glyph} (imresize : glyph → Q → raster)
    (images : list glyph) (labels : list Z) :
  scaled_to_footprint imresize images →
  (images = [] →
     compose imresize images labels =
       Ok (zeros (Z.to_nat height) (Z.to_nat width),
           take 5 labels ++ replicate (5 - length labels) 10)) ∧
  ((length images ≤ max_digits)%nat →
     ∃ canvas,
       compose imresize images labels =
         Ok (canvas, take 5 labels ++ replicate (5 - length labels) 10)) ∧
  ((max_digits < length images)%nat →
     compose imresize images labels = Raise ValueError).
Proof.
  intros Hscaled. split; [|split].
  - intros ->. unfold compose. simpl. by rewrite concat_labels_eq.
  - intros Hnum.
    destruct (compose_placed imresize images labels Hnum Hscaled)
      as (canvas & Hrun & _).
    exists canvas. by rewrite Hrun, concat_labels_eq.
  - intros Hnum. unfold compose.
    by rewrite concat_images_too_many.
Qed.

Lemma compose_failure_cases_witness :
  (∃ canvas,
     compose Run.flat_resize [x01; x02] [7] = Ok (canvas, [7; 10; 10; 10; 10])) ∧
  compose Run.flat_resize [x01; x02; x03; x04; x05; x06] [3; 1; 4; 1; 5; 9] =
    Raise ValueError.
Proof.
  split.
  - apply (compose_failure_cases Run.flat_resize [x01; x02] [7]).
    + apply flat_resize_footprint.
    + simpl. unfold max_digits. lia.
  - apply (compose_failure_cases Run.flat_resize
             [x01; x02; x03; x04; x05; x06] [3; 1; 4; 1; 5; 9]).
    + apply flat_resize_footprint.
    + simpl. unfold max_digits. lia.
Defined.

(** C4 fails as stated: [compose] returns for no image at all, and for one
    image with two labels. *)
Lemma compose_accepts_invalid_input :
  compose Run.flat_resize [] [] =
    Ok (zeros 64 64, [10; 10; 10; 10; 10]) ∧
  ∃ canvas,
    compose Run.flat_resize [x01] [7; 8] = Ok (canvas, [7; 8; 10; 10; 10]).
Proof. split; [|eexists]; vm_compute; reflexivity. Qed.

(** ** Gathering and sampling *)

Lemma gather_ok {A} (a : list A) (selection : list nat) :
  Forall (λ i, (i < length a)%nat) selection →
  ∃ xs, gather a selection = Ok xs ∧
        length xs = length selection ∧ Forall (λ x, x ∈ a) xs.
Proof.
  induction 1 as [|i selection Hi _ (xs & Hxs & Hlen & Hin)]; simpl.
  - by exists [].
  - destruct (lookup_lt_is_Some_2 a i Hi) as [x Hx].
    unfold getitem. rewrite Hx, Hxs. simpl.
    exists (x :: xs). split; [done|]. split; [simpl; by rewrite Hlen|].
    constructor; [|done]. by eapply list_elem_of_lookup_2.
Qed.

(** Indexing with a selection raises nothing but IndexError. *)
Lemma gather_outcome {A} (a : list A) (selection : list nat) :
  match gather a selection with
  | Ok _ => True
  | Raise e => e = IndexError
  end.
Proof.
  induction selection as [|i selection IH]; simpl; [done|].
  unfold getitem. destruct (a !! i); cbn [bind]; [|done].
  by destruct (gather a selection).
Qed.

Lemma submseteq_NoDup {A} (l k : list A) : l ⊆+ k → NoDup k → NoDup l.
Proof.
  intros [k' Hk]%submseteq_Permutation Hnodup. rewrite Hk in Hnodup.
  by apply NoDup_app in Hnodup as [? _].
Qed.

(** A selection from [range(0, len)] holds distinct indices below [len]. *)
Lemma selection_indices (selection : list nat) len :
  selection ⊆+ range 0 len →
  NoDup selection ∧ Forall (λ i, (i < len)%nat) selection.
Proof.
  intros Hsub. split.
  - eapply submseteq_NoDup; [done|]. apply NoDup_seq.
  - apply Forall_forall. intros i Hi.
    apply (elem_of_submseteq _ _ _ Hi), elem_of_range in Hsub. lia.
Qed.

Lemma length_range a b : length (range a b) = (b - a)%nat.
Proof. apply length_seq. Qed.

Lemma rotating_sample_contract : sample_contract Run.rotating_sample.
Proof.
  intros population k g. unfold Run.rotating_sample.
  case_decide as Hk; [|split; [lia|done]].
  split; [done|]. split.
  - rewrite length_take, length_rotate. lia.
  - etrans; [apply submseteq_take|]. apply Permutation_submseteq.
    unfold rotate. rewrite Permutation_app_comm. by rewrite take_drop.
Qed.

(** ** Casting labels and counting digits *)

Lemma to_int32_digit l : 0 ≤ l ≤ 10 → to_int32 l = l.
Proof. intros Hl. unfold to_int32. rewrite Z.mod_small; lia. Qed.

(** A label vector built from at most five digits counts as many digits as
    it was built from. *)
Lemma sequence_length_row (sel_labels : list Z) :
  Forall (λ l, 0 ≤ l ≤ 9) sel_labels → (length sel_labels ≤ 5)%nat →
  sequence_length (to_int32 <$> concat_labels sel_labels 5) =
  length sel_labels.
Proof.
  intros Hdigits Hlen. rewrite concat_labels_eq, take_ge by done.
  unfold sequence_length. rewrite fmap_app, filter_app, length_app.
  assert (filter (λ v, v ≠ 10) (to_int32 <$> sel_labels)
          = sel_labels) as ->.
  { induction Hdigits as [|l ls Hl _ IH]; simpl; [done|].
    rewrite to_int32_digit by lia.
    rewrite filter_cons_True by lia. f_equal. apply IH. simpl in Hlen. lia. }
  assert (filter (λ v, v ≠ 10)
            (to_int32 <$> replicate (5 - length sel_labels) 10) = []) as ->.
  { generalize (5 - length sel_labels)%nat. intros k.
    induction k as [|k IH]; simpl; [done|].
    by rewrite filter_cons_False by (by intros []). }
  simpl. lia.
Qed.

Lemma sequence_length_blank : sequence_length (replicate max_digits 0) = 5%nat.
Proof. reflexivity. Qed.

(** ** The sampler fills the dataset group by group *)

Lemma groups_fit n i :
  (i ≤ max_digits)%nat → (i * (n / max_digits) ≤ n)%nat.
Proof.
  intros Hi. pose proof (Nat.Div0.mul_div_le n max_digits).
  unfold max_digits in *. nia.
Qed.

(** Row [j] of the group of [i] digits is row [j] of group
    [j / n_samples + 1]. *)
Lemma group_of_row n_samples i j :
  ((i - 1) * n_samples ≤ j < i * n_samples)%nat →
  S (j / n_samples) = i.
Proof.
  intros Hj. assert (0 < n_samples)%nat by nia.
  assert (j / n_samples = i - 1)%nat; [|nia].
  symmetry. apply (Nat.div_unique j n_samples (i - 1)
                     (j - n_samples * (i - 1))); nia.
Qed.

Section SamplerFacts.
Context {glyph rng : Type}.
Variable imresize : glyph → Q → raster.
Variable random_sample : list nat → nat → rng → result (list nat * rng).
Variable data : list glyph.
Variable labels : list Z.
Variable n : nat.

Hypothesis contract : sample_contract random_sample.
Hypothesis data_scaled : scaled_to_footprint imresize data.
Hypothesis labels_parallel : length labels = length data.

Abbreviation n_samples := (n / max_digits)%nat.
Abbreviation draw := (draw_sample imresize random_sample data labels).
Abbreviation fill := (fill_group imresize random_sample data labels).
Abbreviation filled_to := (filled imresize data labels n).

(** One iteration of the inner loop, for a length the corpus can supply. *)
Lemma draw_sample_filled i j s :
  (1 ≤ i ≤ max_digits)%nat → (i ≤ length data)%nat →
  ((i - 1) * n_samples ≤ j < i * n_samples)%nat →
  filled_to j s →
  ∃ s', draw i j s = Ok s' ∧ filled_to (S j) s'.
Proof.
  intros Hi Hdata Hj (HX & Hy & Hdrawn & Hrows & Hrest).
  pose proof (groups_fit n i ltac:(lia)) as Hfit.
  unfold draw_sample.
  pose proof (contract (range 0 (length data)) i (gen s)) as Hsample.
  destruct (random_sample _ _ _) as [[sel g']|e]; simpl;
    [|rewrite length_range in Hsample; lia].
  destruct Hsample as (_ & Hlen & Hsub).
  destruct (selection_indices _ _ Hsub) as [_ Hbelow].
  destruct (gather_ok data sel Hbelow) as (images & Hgather & Himages & Hin).
  rewrite Hgather. simpl.
  destruct (concat_images_placed imresize images) as (canvas & Hcanvas & _).
  { unfold max_digits in *. lia. }
  { unfold scaled_to_footprint in *. rewrite Forall_forall in data_scaled.
    eapply Forall_impl; [exact Hin|]. intros img. apply data_scaled. }
  rewrite Hcanvas. simpl. unfold setitem.
  rewrite decide_True by lia. simpl.
  rewrite <- labels_parallel in Hbelow.
  destruct (gather_ok labels sel Hbelow) as (sel_labels & Hlabels & _).
  rewrite Hlabels. simpl. rewrite decide_True by lia. simpl.
  eexists. split; [done|].
  split; [simpl; rewrite length_insert; lia|].
  split; [simpl; rewrite length_insert; lia|].
  split; [simpl; rewrite length_app; simpl; lia|]. split.
  - simpl. intros j' sel' Hj'.
    destruct (decide (j' = j)) as [->|Hne].
    + rewrite lookup_app_r, Hdrawn, Nat.sub_diag in Hj' by lia.
      injection Hj' as <-.
      split; [by rewrite (group_of_row n_samples i)|]. split; [done|].
      exists images, sel_labels, canvas. simpl.
      by rewrite !list_lookup_insert_eq by lia.
    + assert (j' < j)%nat.
      { apply lookup_lt_Some in Hj'. rewrite length_app in Hj'.
        simpl in Hj'. lia. }
      rewrite lookup_app_l in Hj' by lia.
      destruct (Hrows j' sel' Hj')
        as (? & ? & images' & labels' & canvas' & ? & ? & ? & ? & ?).
      split; [done|]. split; [done|].
      exists images', labels', canvas'. simpl.
      by rewrite !list_lookup_insert_ne by done.
  - simpl. intros j' Hj'.
    rewrite !list_lookup_insert_ne by lia. apply Hrest. lia.
Qed.

Lemma fill_group_filled i s :
  (1 ≤ i ≤ max_digits)%nat → (i ≤ length data)%nat →
  filled_to ((i - 1) * n_samples) s →
  ∃ s', fill n_samples i s = Ok s' ∧ filled_to (i * n_samples) s'.
Proof.
  intros Hi Hdata Hs. unfold fill_group.
  apply (for_each_range_inv filled_to); [nia|done|].
  intros j t Hj Ht. by apply draw_sample_filled.
Qed.

Lemma filled_start (g : rng) :
  filled_to 0
    {| X := replicate n (zeros (Z.to_nat height) (Z.to_nat width));
       y := replicate n (replicate max_digits 0);
       drawn := []; gen := g |}.
Proof.
  split; [apply length_replicate|]. split; [apply length_replicate|].
  split; [done|]. split; [done|].
  intros j Hj. simpl. by rewrite !lookup_replicate_2 by lia.
Qed.

(** The outer loop up to the sequence length [m], for a corpus of at least
    [m] glyphs. *)
Lemma groups_filled m (g : rng) :
  (m ≤ max_digits)%nat → (m ≤ length data)%nat →
  ∃ s,
    for_each (λ i s, fill n_samples i s) (range 1 (m + 1))
      {| X := replicate n (zeros (Z.to_nat height) (Z.to_nat width));
         y := replicate n (replicate max_digits 0);
         drawn := []; gen := g |} = Ok s ∧
    filled_to (m * n_samples) s.
Proof.
  intros Hm Hdata.
  destruct (for_each_range_inv (λ i s, filled_to ((i - 1) * n_samples) s)
    (λ i s, fill n_samples i s) 1 (m + 1)
    {| X := replicate n (zeros (Z.to_nat height) (Z.to_nat width));
       y := replicate n (replicate max_digits 0);
       drawn := []; gen := g |})
    as (s & Hrun & Hs); [lia|apply filled_start| |].
  - intros i s Hi Hs.
    destruct (fill_group_filled i s) as (s' & Hrun & Hs'); [lia|lia|done|].
    exists s'. split; [done|]. by replace (S i - 1)%nat with i by lia.
  - exists s. split; [done|]. by replace (m + 1 - 1)%nat with m in Hs by lia.
Qed.

(** With a corpus of at least [max_digits] glyphs the generator raises
    nothing and fills the first [max_digits * n_samples] rows. *)
Lemma generate_loop_filled (g : rng) :
  (max_digits ≤ length data)%nat →
  ∃ s,
    generate_loop imresize random_sample data labels n g = Ok s ∧
    filled_to (max_digits * n_samples) s.
Proof. intros Hdata. by apply groups_filled. Qed.
End SamplerFacts.

(** ** Counting the rows of each length *)

Lemma gather_Ok_inv {A} (a : list A) selection xs :
  gather a selection = Ok xs →
  length xs = length selection ∧ Forall (λ x, x ∈ a) xs.
Proof.
  revert xs. induction selection as [|i selection IH]; intros xs; simpl.
  - by intros [= <-].
  - unfold getitem. destruct (a !! i) as [x|] eqn:Hx; simpl; [|done].
    destruct (gather a selection) as [xs'|]; simpl; [|done].
    intros [= <-]. destruct (IH xs' eq_refl) as [Hlen Hin].
    split; [simpl; by rewrite Hlen|].
    constructor; [|done]. by eapply list_elem_of_lookup_2.
Qed.

Lemma length_filter_all {A} (P : A → Prop) `{∀ x, Decision (P x)} l :
  Forall P l → length (filter P l) = length l.
Proof.
  induction 1 as [|x l Hx _ IH]; [done|].
  rewrite filter_cons_True by done. simpl. by rewrite IH.
Qed.

Lemma length_filter_none {A} (P : A → Prop) `{∀ x, Decision (P x)} l :
  Forall (λ x, ¬ P x) l → length (filter P l) = 0%nat.
Proof.
  induction 1 as [|x l Hx _ IH]; [done|]. by rewrite filter_cons_False.
Qed.

(** Rows [k * ns .. (k + 1) * ns) of a list whose row [j] has
    [j / ns + 1] digits: all of them have [len] digits, or none. *)
Lemma count_of_length_group len ns k (rows : list (list Z)) :
  length rows = ns →
  (∀ j row, rows !! j = Some row →
     sequence_length row = S ((k * ns + j) / ns)) →
  count_of_length len rows = if decide (S k = len) then ns else 0%nat.
Proof.
  intros Hlen Hrows. unfold count_of_length.
  assert (Forall (λ row, sequence_length row = S k) rows) as Hall.
  { apply Forall_lookup. intros j row Hj. rewrite (Hrows j row Hj).
    apply lookup_lt_Some in Hj. f_equal.
    symmetry. apply (Nat.div_unique _ ns k j); lia. }
  case_decide as Hk.
  - rewrite length_filter_all; [done|].
    eapply Forall_impl; [exact Hall|]. simpl. lia.
  - apply length_filter_none.
    eapply Forall_impl; [exact Hall|]. simpl. lia.
Qed.

(** A list of [m] groups of [ns] rows, the rows of group [k] having [k]
    digits, has [ns] rows of every length from 1 to [m]. *)
Lemma count_of_length_groups len ns m (rows : list (list Z)) :
  length rows = (m * ns)%nat →
  (∀ j row, rows !! j = Some row → sequence_length row = S (j / ns)) →
  count_of_length len rows =
    if decide (1 ≤ len ≤ m)%nat then ns else 0%nat.
Proof.
  revert rows. induction m as [|m IH]; intros rows Hlen Hrows.
  - destruct rows; [|done]. by rewrite decide_False by lia.
  - rewrite <- (take_drop (m * ns) rows).
    unfold count_of_length. rewrite filter_app, length_app.
    fold (count_of_length len (take (m * ns) rows)).
    fold (count_of_length len (drop (m * ns) rows)).
    rewrite IH.
    + rewrite (count_of_length_group len ns m).
      * repeat case_decide; lia.
      * rewrite length_drop. lia.
      * intros j row Hj. rewrite lookup_drop in Hj. by apply Hrows.
    + rewrite length_take. lia.
    + intros j row [Hj _]%lookup_take_Some. by apply Hrows.
Qed.

(** ** The dataset that the generator returns *)

Section Dataset.
Context {glyph rng : Type}.
Variable imresize : glyph → Q → raster.
Variable random_sample : list nat → nat → rng → result (list nat * rng).
Variable data : list glyph.
Variable labels : list Z.
Variable n : nat.

Hypothesis contract : sample_contract random_sample.
Hypothesis data_scaled : scaled_to_footprint imresize data.
Hypothesis labels_parallel : length labels = length data.
Hypothesis labels_digits : Forall (λ l, 0 ≤ l ≤ 9) labels.
Hypothesis corpus_large : (max_digits ≤ length data)%nat.

(** A row that has been drawn has as many digits as its group says. *)
Lemma filled_row_length k (s : @state rng) j row :
  (k ≤ max_digits * (n / max_digits))%nat →
  filled imresize data labels n k s →
  (j < k)%nat → y s !! j = Some row →
  sequence_length row = S (j / (n / max_digits)).
Proof.
  intros Hk (_ & _ & Hdrawn & Hrows & _) Hj Hrow.
  destruct (lookup_lt_is_Some_2 (drawn s) j) as [sel Hsel]; [lia|].
  destruct (Hrows j sel Hsel)
    as (Hlen & _ & images & sel_labels & canvas & _ & Hgather & _ & _ & Hy).
  rewrite Hy in Hrow. injection Hrow as <-.
  apply gather_Ok_inv in Hgather as [Hlabels Hin].
  rewrite sequence_length_row; [congruence| |].
  - rewrite Forall_forall in labels_digits.
    eapply Forall_impl; [exact Hin|]. intros l. apply labels_digits.
  - rewrite Hlabels, Hlen.
    assert (j / (n / max_digits) < max_digits)%nat; [|unfold max_digits in *; lia].
    apply Nat.Div0.div_lt_upper_bound. lia.
Qed.

(** The generator returns [n] rows: row [j] of the first
    [max_digits * (n / max_digits)] has [j / (n / max_digits) + 1] digits,
    and the rows after them are as [np.zeros] allocated them. *)
Lemma generate_rows (g : rng) :
  ∃ Xs ys g',
    generate_digit_sequences imresize random_sample data labels n g =
      Ok (Xs, ys, g') ∧
    length Xs = n ∧ length ys = n ∧
    (∀ j row, (j < max_digits * (n / max_digits))%nat →
       ys !! j = Some row →
       sequence_length row = S (j / (n / max_digits))) ∧
    (∀ j, (max_digits * (n / max_digits) ≤ j < n)%nat →
       Xs !! j =
         Some (expand_canvas (zeros (Z.to_nat height) (Z.to_nat width))) ∧
       ys !! j = Some (replicate max_digits 0)).
Proof.
  destruct (generate_loop_filled imresize random_sample data labels n
              contract data_scaled labels_parallel g corpus_large)
    as (s & Hrun & Hs).
  exists (expand_dims (X s)), (y s), (gen s).
  unfold generate_digit_sequences. rewrite Hrun. cbn [bind].
  split; [done|]. pose proof Hs as (HX & Hy & _ & _ & Hrest).
  split; [unfold expand_dims; by rewrite length_fmap|]. split; [done|].
  split.
  - intros j row Hj Hrow.
    by apply (filled_row_length (max_digits * (n / max_digits)) s).
  - intros j Hj. destruct (Hrest j Hj) as [HXj Hyj]. split; [|done].
    unfold expand_dims. by rewrite list_lookup_fmap, HXj.
Qed.

(** The histogram of sequence lengths of the dataset returned. *)
Lemma generate_counts (g : rng) :
  ∃ Xs ys g',
    generate_digit_sequences imresize random_sample data labels n g =
      Ok (Xs, ys, g') ∧
    ∀ len,
      count_of_length len ys =
      ((if decide (1 ≤ len ≤ max_digits)%nat then n / max_digits else 0) +
       (if decide (len = max_digits) then n `mod` max_digits else 0))%nat.
Proof.
  destruct (generate_rows g) as (Xs & ys & g' & Hrun & _ & Hys & Hrows & Hrest).
  exists Xs, ys, g'. split; [done|]. intros len.
  pose proof (Nat.Div0.mul_div_le n max_digits) as Hle.
  pose proof (Nat.Div0.div_mod n max_digits) as Hdiv.
  rewrite <- (take_drop (max_digits * (n / max_digits)) ys).
  unfold count_of_length. rewrite filter_app, length_app.
  fold (count_of_length len (take (max_digits * (n / max_digits)) ys)).
  f_equal.
  - apply count_of_length_groups.
    + rewrite length_take. lia.
    + intros j row [Hj Hlt]%lookup_take_Some. by apply Hrows.
  - assert (Forall (λ row, sequence_length row = max_digits)
              (drop (max_digits * (n / max_digits)) ys)) as Hall.
    { apply Forall_lookup. intros j row Hj. rewrite lookup_drop in Hj.
      pose proof (lookup_lt_Some _ _ _ Hj).
      destruct (Hrest (max_digits * (n / max_digits) + j)%nat) as [_ Hrow];
        [lia|].
      rewrite Hrow in Hj. by injection Hj as <-. }
    case_decide as Hlen.
    + rewrite length_filter_all, length_drop; [lia|].
      eapply Forall_impl; [exact Hall|]. simpl. lia.
    + apply length_filter_none.
      eapply Forall_impl; [exact Hall|]. simpl. lia.
Qed.
End Dataset.

Lemma dataset_size_groups :
  (dataset_size / max_digits)%nat = Z.to_nat 10000 ∧
  (dataset_size `mod` max_digits)%nat = 0%nat.
Proof.
  unfold dataset_size, max_digits. change 5%nat with (Z.to_nat 5).
  rewrite <- Z2Nat.inj_div, <- Z2Nat.inj_mod by lia. done.
Qed.

Lemma run_labels_digits : Forall (λ l, 0 ≤ l ≤ 9) Run.corpus_labels.
Proof. unfold Run.corpus_labels. repeat constructor; lia. Qed.

(** C2. For a target size [n] divisible by [max_digits], the generator
    returns two parallel arrays of [n] rows in [max_digits] contiguous groups
    of [n / max_digits] rows: every row of group [i], at the indices from
    [(i - 1) * (n / max_digits)] up to [i * (n / max_digits)], has exactly
    [i] slots that are not the filler 10. So each length from 1 to
    [max_digits] is had by [n / max_digits] rows: by 10000 rows for the
    50000 rows of the notebook. *)
Theorem generate_balanced {glyph rng} (imresize : glyph → Q → raster)
    (random_sample : list nat → nat → rng → result (list nat * rng))
    (data : list glyph) (labels : list Z) (n : nat) (g : rng) :
  sample_contract random_sample →
  scaled_to_footprint imresize data →
  length labels = length data →
  Forall (λ l, 0 ≤ l ≤ 9) labels →
  (max_digits ≤ length data)%nat →
  (n `mod` max_digits = 0)%nat →
  ∃ Xs ys g',
    generate_digit_sequences imresize random_sample data labels n g =
      Ok (Xs, ys, g') ∧
    length Xs = n ∧ length ys = n ∧
    (∀ i j row,
       (1 ≤ i ≤ max_digits)%nat →
       ((i - 1) * (n / max_digits) ≤ j < i * (n / max_digits))%nat →
       ys !! j = Some row → sequence_length row = i) ∧
    (∀ len, (1 ≤ len ≤ max_digits)%nat →
       count_of_length len ys = (n / max_digits)%nat) ∧
    (n = dataset_size →
     ∀ len, (1 ≤ len ≤ 5)%nat → count_of_length len ys = Z.to_nat 10000).
Proof.
  intros Hcontract Hscaled Hparallel Hdigits Hcorpus Hdiv.
  destruct (generate_rows imresize random_sample data labels n
              Hcontract Hscaled Hparallel Hdigits Hcorpus g)
    as (Xs & ys & g' & Hrun & HXs & Hys & Hrows & _).
  destruct (generate_counts imresize random_sample data labels n
              Hcontract Hscaled Hparallel Hdigits Hcorpus g)
    as (Xs' & ys' & g'' & Hrun' & Hcount).
  rewrite Hrun in Hrun'. injection Hrun' as <- <- <-.
  assert (Hbalanced : ∀ len, (1 ≤ len ≤ max_digits)%nat →
            count_of_length len ys = (n / max_digits)%nat).
  { intros len Hlen. rewrite Hcount, Hdiv, decide_True by done.
    case_decide; lia. }
  exists Xs, ys, g'. repeat split; try done.
  - intros i j row Hi Hj Hrow. rewrite (Hrows j row); [|nia|done].
    by apply group_of_row.
  - intros -> len Hlen. rewrite Hbalanced by done.
    apply dataset_size_groups.
Qed.

Lemma generate_balanced_witness :
  ∃ Xs ys g',
    generate_digit_sequences Run.flat_resize Run.rotating_sample
      Run.corpus Run.corpus_labels 10 0%nat = Ok (Xs, ys, g') ∧
    length Xs = 10%nat ∧ length ys = 10%nat ∧
    (∀ i j row,
       (1 ≤ i ≤ max_digits)%nat →
       ((i - 1) * (10 / max_digits) ≤ j < i * (10 / max_digits))%nat →
       ys !! j = Some row → sequence_length row = i) ∧
    (∀ len, (1 ≤ len ≤ max_digits)%nat →
       count_of_length len ys = (10 / max_digits)%nat) ∧
    (10%nat = dataset_size →
     ∀ len, (1 ≤ len ≤ 5)%nat → count_of_length len ys = Z.to_nat 10000).
Proof.
  apply (generate_balanced Run.flat_resize Run.rotating_sample
           Run.corpus Run.corpus_labels 10 0%nat).
  - apply rotating_sample_contract.
  - apply flat_resize_footprint.
  - reflexivity.
  - apply run_labels_digits.
  - vm_compute. lia.
  - reflexivity.
Defined.

(** C7, what the code does. For a target size [n] that [max_digits] does
    not divide, the generator raises nothing and applies no policy: the last
    [n mod max_digits] rows are returned as [np.zeros] allocated them, a
    blank canvas labelled [0, 0, 0, 0, 0], and they count as rows of
    [max_digits] digits, so that length is had by more rows than the
    others. *)
Theorem generate_remainder_rows_blank {glyph rng}
    (imresize : glyph → Q → raster)
    (random_sample : list nat → nat → rng → result (list nat * rng))
    (data : list glyph) (labels : list Z) (n : nat) (g : rng) :
  sample_contract random_sample →
  scaled_to_footprint imresize data →
  length labels = length data →
  Forall (λ l, 0 ≤ l ≤ 9) labels →
  (max_digits ≤ length data)%nat →
  (n `mod` max_digits ≠ 0)%nat →
  ∃ Xs ys g',
    generate_digit_sequences imresize random_sample data labels n g =
      Ok (Xs, ys, g') ∧
    length Xs = n ∧ length ys = n ∧
    (∀ j, (max_digits * (n / max_digits) ≤ j < n)%nat →
       Xs !! j =
         Some (expand_canvas (zeros (Z.to_nat height) (Z.to_nat width))) ∧
       ys !! j = Some (replicate max_digits 0)) ∧
    count_of_length max_digits ys =
      (n / max_digits + n `mod` max_digits)%nat ∧
    (∀ len, (1 ≤ len < max_digits)%nat →
       count_of_length len ys = (n / max_digits)%nat) ∧
    (count_of_length 1 ys < count_of_length max_digits ys)%nat.
Proof.
  intros Hcontract Hscaled Hparallel Hdigits Hcorpus Hdiv.
  destruct (generate_rows imresize random_sample data labels n
              Hcontract Hscaled Hparallel Hdigits Hcorpus g)
    as (Xs & ys & g' & Hrun & HXs & Hys & _ & Hrest).
  destruct (generate_counts imresize random_sample data labels n
              Hcontract Hscaled Hparallel Hdigits Hcorpus g)
    as (Xs' & ys' & g'' & Hrun' & Hcount).
  rewrite Hrun in Hrun'. injection Hrun' as <- <- <-.
  exists Xs, ys, g'.
  split; [done|]. split; [done|]. split; [done|]. split; [done|].
  unfold max_digits in *. split; [|split].
  - rewrite Hcount. rewrite !decide_True by lia. done.
  - intros len Hlen. rewrite Hcount, decide_True, decide_False by lia. lia.
  - rewrite !Hcount. repeat case_decide; lia.
Qed.

Lemma generate_remainder_rows_blank_witness :
  ∃ Xs ys g',
    generate_digit_sequences Run.flat_resize Run.rotating_sample
      Run.corpus Run.corpus_labels 7 0%nat = Ok (Xs, ys, g') ∧
    length Xs = 7%nat ∧ length ys = 7%nat ∧
    (∀ j, (max_digits * (7 / max_digits) ≤ j < 7)%nat →
       Xs !! j =
         Some (expand_canvas (zeros (Z.to_nat height) (Z.to_nat width))) ∧
       ys !! j = Some (replicate max_digits 0)) ∧
    count_of_length max_digits ys =
      (7 / max_digits + 7 `mod` max_digits)%nat ∧
    (∀ len, (1 ≤ len < max_digits)%nat →
       count_of_length len ys = (7 / max_digits)%nat) ∧
    (count_of_length 1 ys < count_of_length max_digits ys)%nat.
Proof.
  apply (generate_remainder_rows_blank Run.flat_resize Run.rotating_sample
           Run.corpus Run.corpus_labels 7 0%nat).
  - apply rotating_sample_contract.
  - apply flat_resize_footprint.
  - reflexivity.
  - apply run_labels_digits.
  - vm_compute. lia.
  - vm_compute. lia.
Defined.

(** The run behind C7: a corpus of seven glyphs and a target size of 7. Rows
    5 and 6 were never drawn, yet they are returned as rows of five digits. *)
Example generate_seven_rows :
  ∃ Xs ys g',
    generate_digit_sequences Run.flat_resize Run.rotating_sample
      Run.corpus Run.corpus_labels 7 0%nat = Ok (Xs, ys, g') ∧
    drop 5 ys = [[0; 0; 0; 0; 0]; [0; 0; 0; 0; 0]] ∧
    sequence_length <$> ys = [1; 2; 3; 4; 5; 5; 5]%nat.
Proof. do 3 eexists. vm_compute. done. Qed.

(** ** A corpus too small, a target too small *)

Lemma range_nonempty a b : (a < b)%nat → range a b = a :: range (S a) b.
Proof.
  intros Hab. unfold range.
  replace (b - a)%nat with (S (b - S a)) by lia. done.
Qed.

Lemma range_empty a b : (b ≤ a)%nat → range a b = [].
Proof. intros Hab. unfold range. by replace (b - a)%nat with 0%nat by lia. Qed.

Lemma for_each_skip {St} (body : nat → St → result St) idx s :
  (∀ i s, body i s = Ok s) → for_each body idx s = Ok s.
Proof.
  intros Hskip. induction idx as [|i idx IH]; simpl; [done|].
  by rewrite Hskip.
Qed.

Section SamplerRaises.
Context {glyph rng : Type}.
Variable imresize : glyph → Q → raster.
Variable random_sample : list nat → nat → rng → result (list nat * rng).
Variable data : list glyph.
Variable labels : list Z.

Hypothesis contract : sample_contract random_sample.

(** A sample of more glyphs than the corpus holds: [random.sample] raises
    before anything is composed. *)
Lemma draw_sample_raises i j (s : @state rng) :
  (length data < i)%nat →
  draw_sample imresize random_sample data labels i j s = Raise ValueError.
Proof.
  intros Hi. unfold draw_sample.
  pose proof (contract (range 0 (length data)) i (gen s)) as Hsample.
  destruct (random_sample _ _ _) as [[sel g']|e]; simpl.
  - rewrite length_range in Hsample. lia.
  - by destruct Hsample as [_ ->].
Qed.

Lemma fill_group_raises n_samples i (s : @state rng) :
  (length data < i)%nat → (0 < n_samples)%nat →
  fill_group imresize random_sample data labels n_samples i s =
    Raise ValueError.
Proof.
  intros Hi Hn. unfold fill_group.
  rewrite range_nonempty by nia. simpl.
  by rewrite draw_sample_raises.
Qed.

(** No group is drawn when the target size is below [max_digits]. *)
Lemma fill_group_none i (s : @state rng) :
  fill_group imresize random_sample data labels 0 i s = Ok s.
Proof. unfold fill_group. by rewrite range_empty by lia. Qed.

(** What one sample can raise. ValueError comes from [random.sample] or from
    the slice assignment of the compositor; IndexError comes from
    [labels[selection]] and takes a corpus with more glyphs than labels.
    [data[selection]] and the stores into row [j] raise nothing, the indices
    being in range. *)
Lemma draw_sample_outcome n i j (s : @state rng) :
  (j < n)%nat → length (X s) = n ∧ length (y s) = n →
  match draw_sample imresize random_sample data labels i j s with
  | Ok s' => length (X s') = n ∧ length (y s') = n
  | Raise e =>
      e = ValueError ∨ e = IndexError ∧ (length labels < length data)%nat
  end.
Proof.
  intros Hj [HX Hy]. unfold draw_sample.
  pose proof (contract (range 0 (length data)) i (gen s)) as Hsample.
  destruct (random_sample _ _ _) as [[sel g']|e]; cbn [bind fst snd];
    [|left; by destruct Hsample].
  destruct Hsample as (_ & _ & Hsub).
  destruct (selection_indices _ _ Hsub) as [_ Hbelow].
  destruct (gather_ok data sel Hbelow) as (images & -> & _). cbn [bind].
  pose proof (concat_images_outcome imresize images) as Hcanvas.
  destruct (concat_images imresize images) as [canvas|]; cbn [bind];
    [|by left].
  unfold setitem. rewrite decide_True by lia. cbn [bind].
  pose proof (gather_outcome labels sel) as Hgather.
  destruct (gather labels sel) as [sel_labels|e] eqn:Hlabels; cbn [bind].
  - rewrite decide_True by lia. cbn [bind X y]. by rewrite !length_insert.
  - right. split; [done|].
    destruct (decide (length labels < length data)%nat) as [|Hlong]; [done|].
    destruct (gather_ok labels sel) as (sel_labels & Hok & _); [|congruence].
    eapply Forall_impl; [exact Hbelow|]. intros k Hk. simpl in *. lia.
Qed.
End SamplerRaises.

(** C5, as the code has it. The generator checks nothing about the corpus
    and has no error of its own. Under the contract of [random.sample], with
    a target size of at least [max_digits] and a corpus of fewer than
    [max_digits] glyphs, an empty one included, it raises and returns no
    dataset. The exception is ValueError or IndexError, and IndexError only
    for a corpus with fewer labels than glyphs: for an empty corpus, and
    whenever every glyph has its label, it is ValueError. With a target size
    of 0 nothing is drawn and the dataset returned is empty, whatever the
    corpus. *)
Theorem generate_small_corpus {glyph rng} (imresize : glyph → Q → raster)
    (random_sample : list nat → nat → rng → result (list nat * rng))
    (data : list glyph) (labels : list Z) (n : nat) (g : rng) :
  sample_contract random_sample →
  (length data < max_digits)%nat →
  ((max_digits ≤ n)%nat →
     ∃ e, generate_digit_sequences imresize random_sample data labels n g =
            Raise e ∧
          (e = ValueError ∨
           e = IndexError ∧ (length labels < length data)%nat)) ∧
  (n = 0%nat →
     generate_digit_sequences imresize random_sample data labels n g =
       Ok ([], [], g)).
Proof.
  intros Hcontract Hdata. split.
  - intros Hn.
    assert (0 < n / max_digits)%nat as Hpos.
    { apply Nat.div_str_pos. unfold max_digits in *. lia. }
    unfold generate_digit_sequences, generate_loop.
    edestruct (for_each_raises
      (λ s : @state rng, length (X s) = n ∧ length (y s) = n)
      (λ e, e = ValueError ∨
            e = IndexError ∧ (length labels < length data)%nat)
      (λ i s, fill_group imresize random_sample data labels
                (n / max_digits) i s)
      (range 1 (max_digits + 1)) (length data + 1)%nat)
      as (e & -> & He); [| | | |by exists e].
    + apply elem_of_range. lia.
    + intros s _. exists ValueError.
      by apply fill_group_raises; [|lia|].
    + intros i s Hi Hs. apply elem_of_range in Hi. unfold fill_group.
      apply (for_each_outcome
               (λ s : @state rng, length (X s) = n ∧ length (y s) = n));
        [|done].
      intros j t Hj Ht. apply elem_of_range in Hj.
      pose proof (groups_fit n i ltac:(lia)) as Hfit.
      apply draw_sample_outcome; [done|lia|done].
    + cbn [X y]. by rewrite !length_replicate.
  - intros ->. unfold generate_digit_sequences, generate_loop.
    rewrite Nat.Div0.div_0_l.
    by rewrite for_each_skip by (intros; apply fill_group_none).
Qed.

Lemma generate_small_corpus_witness :
  (∃ e, generate_digit_sequences Run.flat_resize Run.rotating_sample
          [x01; x02] [2; 3] 10 0%nat = Raise e ∧
        (e = ValueError ∨
         e = IndexError ∧
         (length [2%Z; 3%Z] < length [x01; x02])%nat)) ∧
  generate_digit_sequences Run.flat_resize Run.rotating_sample
    [x01; x02] [2; 3] 0 0%nat = Ok ([], [], 0%nat).
Proof.
  split.
  - apply (generate_small_corpus Run.flat_resize Run.rotating_sample
             [x01; x02] [2; 3] 10 0%nat);
      [apply rotating_sample_contract|vm_compute; lia..].
  - apply (generate_small_corpus Run.flat_resize Run.rotating_sample
             [x01; x02] [2; 3] 0 0%nat);
      [apply rotating_sample_contract|vm_compute; lia|reflexivity].
Defined.

(** C5 fails as stated: with an empty corpus the generator raises nothing
    when it has no sample to draw. It returns an empty dataset for a target
    size of 0, and rows for a target size of 4. *)
Lemma generate_empty_corpus_returns :
  generate_digit_sequences Run.flat_resize Run.rotating_sample
    [] [] 0 0%nat = Ok ([], [], 0%nat) ∧
  generate_digit_sequences Run.flat_resize Run.rotating_sample
    [] [] 4 0%nat =
    Ok (replicate 4 (expand_canvas (zeros 64 64)),
        replicate 4 [0; 0; 0; 0; 0], 0%nat).
Proof. split; vm_compute; reflexivity. Qed.

(** ** The indices of one sample *)

(** Whatever the corpus, every selection logged by a run that returns holds
    distinct indices of the corpus. *)
Lemma drawn_distinct {glyph rng} (imresize : glyph → Q → raster)
    (random_sample : list nat → nat → rng → result (list nat * rng))
    (data : list glyph) (labels : list Z) (n : nat) (g : rng) s :
  sample_contract random_sample →
  generate_loop imresize random_sample data labels n g = Ok s →
  Forall (λ sel, NoDup sel ∧ Forall (λ i, (i < length data)%nat) sel)
    (drawn s).
Proof.
  intros Hcontract Hrun.
  pose (P := λ s : @state rng,
    Forall (λ sel, NoDup sel ∧ Forall (λ i, (i < length data)%nat) sel)
      (drawn s)).
  apply (for_each_preserves P _ _) with (s' := s) in Hrun;
    [done| |by apply Forall_nil].
  intros i s1 s2 _ Hs1 Hgroup.
  apply (for_each_preserves P _ _) with (s' := s2) in Hgroup; [done| |done].
  intros j t t' _ Ht. unfold draw_sample.
  pose proof (Hcontract (range 0 (length data)) i (gen t)) as Hsample.
  destruct (random_sample _ _ _) as [[sel g']|e]; simpl; [|done].
  destruct Hsample as (_ & _ & Hsub).
  destruct (gather data sel); simpl; [|done].
  destruct (concat_images imresize _); simpl; [|done].
  destruct (setitem (X t) j _); simpl; [|done].
  destruct (gather labels sel); simpl; [|done].
  destruct (setitem (y t) j _); simpl; [|done].
  intros [= <-]. unfold P. simpl. apply Forall_app. split; [done|].
  apply Forall_singleton. by apply selection_indices.
Qed.

(** C6. The generator returns, and it draws one selection per sample: the
    selection of row [j] holds as many indices of the corpus as the group of
    the row says, no index twice, and the row is composed from the glyphs and
    labels at these indices. Across samples an index can come back: in the
    run on the corpus of seven glyphs, index 3 is in the samples of rows 2
    and 3. *)
Theorem draws_distinct_within_sample :
  (∀ {glyph rng} (imresize : glyph → Q → raster)
     (random_sample : list nat → nat → rng → result (list nat * rng))
     (data : list glyph) (labels : list Z) (n : nat) (g : rng),
     sample_contract random_sample →
     scaled_to_footprint imresize data →
     length labels = length data →
     (max_digits ≤ length data)%nat →
     ∃ s,
       generate_loop imresize random_sample data labels n g = Ok s ∧
       generate_digit_sequences imresize random_sample data labels n g =
         Ok (expand_dims (X s), y s, gen s) ∧
       length (drawn s) = (max_digits * (n / max_digits))%nat ∧
       ∀ j sel, drawn s !! j = Some sel →
         NoDup sel ∧
         Forall (λ i, (i < length data)%nat) sel ∧
         length sel = S (j / (n / max_digits)) ∧
         sample_at imresize data labels s j sel) ∧
  (∃ s,
     generate_loop Run.flat_resize Run.rotating_sample
       Run.corpus Run.corpus_labels 10 0%nat = Ok s ∧
     drawn s !! 2%nat = Some [2; 3]%nat ∧
     drawn s !! 3%nat = Some [3; 4]%nat).
Proof.
  split.
  - intros glyph rng imresize random_sample data labels n g
      Hcontract Hscaled Hparallel Hcorpus.
    destruct (generate_loop_filled imresize random_sample data labels n
                Hcontract Hscaled Hparallel g Hcorpus)
      as (s & Hrun & _ & _ & Hdrawn & Hrows & _).
    exists s. split; [done|].
    split; [unfold generate_digit_sequences; by rewrite Hrun|].
    split; [done|]. intros j sel Hsel.
    destruct (Hrows j sel Hsel) as (Hlen & Hsub & Hat).
    destruct (selection_indices _ _ Hsub) as [Hnodup Hbelow].
    done.
  - eexists. split; [vm_compute; reflexivity|]. by vm_compute.
Qed.

Lemma draws_distinct_within_sample_witness :
  ∃ s,
    generate_loop Run.flat_resize Run.rotating_sample
      Run.corpus Run.corpus_labels 10 0%nat = Ok s ∧
    generate_digit_sequences Run.flat_resize Run.rotating_sample
      Run.corpus Run.corpus_labels 10 0%nat =
      Ok (expand_dims (X s), y s, gen s) ∧
    length (drawn s) = (max_digits * (10 / max_digits))%nat ∧
    ∀ j sel, drawn s !! j = Some sel →
      NoDup sel ∧
      Forall (λ i, (i < length Run.corpus)%nat) sel ∧
      length sel = S (j / (10 / max_digits)) ∧
      sample_at Run.flat_resize Run.corpus Run.corpus_labels s j sel.
Proof.
  apply (proj1 draws_distinct_within_sample).
  - apply rotating_sample_contract.
  - apply flat_resize_footprint.
  - reflexivity.
  - vm_compute. lia.
Defined.

(** ** The compositor on the store refines the pure compositor *)

(** Two loops step in lockstep: the second returns when the first does, in
    related states, and raises what the first raises. *)
Lemma for_each_sim {S1 S2} (R : S1 → S2 → Prop)
    (body1 : nat → S1 → result S1) (body2 : nat → S2 → result S2) idx :
  (∀ i s1 s2, i ∈ idx → R s1 s2 →
     match body1 i s1 with
     | Ok s1' => ∃ s2', body2 i s2 = Ok s2' ∧ R s1' s2'
     | Raise e => body2 i s2 = Raise e
     end) →
  ∀ s1 s2, R s1 s2 →
    match for_each body1 idx s1 with
    | Ok s1' => ∃ s2', for_each body2 idx s2 = Ok s2' ∧ R s1' s2'
    | Raise e => for_each body2 idx s2 = Raise e
    end.
Proof.
  induction idx as [|i idx IH]; intros Hstep s1 s2 HR; simpl.
  - by exists s2.
  - pose proof (Hstep i s1 s2 ltac:(left) HR) as Hi.
    destruct (body1 i s1) as [s1'|e]; simpl.
    + destruct Hi as (s2' & -> & HR'). simpl. apply IH; [|done].
      intros j t1 t2 Hj. apply Hstep. by right.
    + by rewrite Hi.
Qed.

Lemma foldl_for_each {St} (f : St → nat → St) idx s :
  for_each (λ i s, Ok (f s i)) idx s = Ok (foldl f s idx).
Proof. revert s. induction idx as [|i idx IH]; intros s; simpl; auto. Qed.

Section HeapFacts.
Context {glyph : Type}.
Variable imresize : glyph → Q → raster.

Abbreviation heap := (gmap nat (@Heap.array glyph)).

Lemma alloc_fresh (v : Heap.array) (h : heap) :
  h !! (Heap.alloc v h).1 = None ∧
  (Heap.alloc v h).2 !! (Heap.alloc v h).1 = Some v ∧
  h ⊆ (Heap.alloc v h).2.
Proof.
  unfold Heap.alloc. simpl.
  assert (h !! fresh (dom h) = None) as Hfresh.
  { apply not_elem_of_dom, is_fresh. }
  split; [done|]. split; [apply lookup_insert_eq|by apply insert_subseteq].
Qed.

Lemma concat_images_refines (images : nat) (imgs : list glyph) (h : heap) :
  h !! images = Some (Heap.Glyphs imgs) →
  match concat_images imresize imgs with
  | Ok canvas =>
      ∃ r, Heap.concat_images imresize images h = Ok r ∧
           Heap.returns_fresh h (Heap.Pixels canvas) r
  | Raise e => Heap.concat_images imresize images h = Raise e
  end.
Proof.
  intros Himages. unfold Heap.concat_images. rewrite Himages.
  destruct (alloc_fresh
              (Heap.Pixels (zeros (Z.to_nat height) (Z.to_nat width))) h)
    as (Hnew & Hzeros & Hsub).
  destruct (Heap.alloc _ h) as [new_image h0]. simpl in Hnew, Hzeros, Hsub.
  unfold concat_images.
  pose proof (for_each_sim
    (λ (a : raster) (hk : heap),
       h ⊆ hk ∧ hk !! new_image = Some (Heap.Pixels a))) as Hsim.
  match goal with
  | |- context [for_each ?body1 _ (zeros _ _)] =>
      specialize (Hsim body1)
  end.
  match goal with
  | |- context [for_each ?body2 _ h0] =>
      specialize (Hsim body2 (range 0 (length imgs)))
  end.
  match type of Hsim with
  | ?P → _ => assert P as Hstep; [|specialize (Hsim Hstep)]
  end.
  { intros i a hk _ [Hhk Ha].
    rewrite (lookup_weaken _ _ _ _ Himages Hhk).
    destruct (getitem imgs i) as [image|e]; cbn [bind]; [|done].
    destruct (alloc_fresh (Heap.Pixels (imresize image scale)) hk)
      as (Hfresh & Hscaled & Hsub').
    destruct (Heap.alloc _ hk) as [scaled hk'].
    simpl in Hfresh, Hscaled, Hsub'. cbv beta iota.
    rewrite (lookup_weaken _ _ _ _ Ha Hsub'), Hscaled.
    destruct (setitem_slice a _ _ _) as [a'|e]; simpl; [|done].
    eexists. split; [done|]. split; [|apply lookup_insert_eq].
    apply insert_subseteq_r; [done|]. by etrans. }
  specialize (Hsim (zeros (Z.to_nat height) (Z.to_nat width)) h0
                (conj Hsub Hzeros)).
  destruct (for_each _ _ (zeros _ _)) as [canvas|e].
  - destruct Hsim as (h' & -> & Hh' & Hcanvas). simpl.
    eexists. split; [done|]. by split.
  - by rewrite Hsim.
Qed.

Lemma concat_labels_refines (labels : nat) (ls : list Z) num_images
    (h : heap) :
  h !! labels = Some (Heap.Labels ls) →
  ∃ r, Heap.concat_labels labels num_images h = Ok r ∧
       Heap.returns_fresh h (Heap.Labels (concat_labels ls num_images)) r.
Proof.
  intros Hlabels. unfold Heap.concat_labels. rewrite Hlabels.
  destruct (alloc_fresh (Heap.Labels (replicate num_images 0)) h)
    as (Hnew & Hzeros & Hsub).
  destruct (Heap.alloc _ h) as [new_label h0]. simpl in Hnew, Hzeros, Hsub.
  pose proof (for_each_sim
    (λ (acc : list Z) (hk : heap),
       h ⊆ hk ∧ hk !! new_label = Some (Heap.Labels acc))
    (λ i new_label,
       Ok (match ls !! i with
           | Some l => <[i:=l]> new_label
           | None => <[i:=10]> new_label
           end))) as Hsim.
  match goal with
  | |- context [for_each ?body2 _ h0] =>
      specialize (Hsim body2 (range 0 num_images))
  end.
  match type of Hsim with
  | ?P → _ => assert P as Hstep; [|specialize (Hsim Hstep)]
  end.
  { intros i acc hk _ [Hhk Hacc].
    rewrite (lookup_weaken _ _ _ _ Hlabels Hhk), Hacc.
    eexists. split; [done|]. split; [|apply lookup_insert_eq].
    by apply insert_subseteq_r. }
  specialize (Hsim (replicate num_images 0) h0 (conj Hsub Hzeros)).
  rewrite (foldl_for_each
             (λ new_label i,
                match ls !! i with
                | Some l => <[i:=l]> new_label
                | None => <[i:=10]> new_label
                end)) in Hsim.
  destruct Hsim as (h' & -> & Hh' & Hlabel). simpl.
  eexists. split; [done|]. by split.
Qed.
End HeapFacts.

Lemma compose_refines {glyph} (imresize : glyph → Q → raster)
    (images labels : nat) (imgs : list glyph) (ls : list Z)
    (h : gmap nat Heap.array) :
  h !! images = Some (Heap.Glyphs imgs) →
  h !! labels = Some (Heap.Labels ls) →
  match compose imresize imgs ls with
  | Ok (canvas, label) =>
      ∃ c l h',
        Heap.compose imresize images labels h = Ok (c, l, h') ∧
        h ⊆ h' ∧ h !! c = None ∧ h !! l = None ∧
        h' !! c = Some (Heap.Pixels canvas) ∧
        h' !! l = Some (Heap.Labels label)
  | Raise e => Heap.compose imresize images labels h = Raise e
  end.
Proof.
  intros Himages Hlabels. unfold compose, Heap.compose.
  pose proof (concat_images_refines imresize images imgs h Himages) as Hc.
  destruct (concat_images imresize imgs) as [canvas|e]; cbn [bind].
  - destruct Hc as ([c h1] & -> & Hsub1 & Hnew1 & Hcanvas). cbn [bind fst snd].
    simpl in Hsub1, Hnew1, Hcanvas.
    destruct (concat_labels_refines labels ls 5 h1)
      as ([l h2] & -> & Hsub2 & Hnew2 & Hlabel);
      [by eapply lookup_weaken|].
    cbn [bind fst snd]. simpl in Hsub2, Hnew2, Hlabel.
    exists c, l, h2. split; [done|]. split; [by etrans|].
    split; [done|]. split; [by eapply lookup_weaken_None|].
    split; [by eapply lookup_weaken|done].
  - by rewrite Hc.
Qed.

(** C9. Two calls of [compose] on arrays that hold the same glyphs and the
    same labels, in whatever two stores, raise the same exception or return
    a canvas and a label vector with the same contents, those of the pure
    [compose]; and a call leaves every array that existed before it as it
    was, its results being new arrays. *)
Theorem compose_deterministic {glyph} (imresize : glyph → Q → raster)
    (h1 h2 : gmap nat Heap.array) (images1 labels1 images2 labels2 : nat)
    (imgs : list glyph) (ls : list Z) :
  h1 !! images1 = Some (Heap.Glyphs imgs) →
  h1 !! labels1 = Some (Heap.Labels ls) →
  h2 !! images2 = Some (Heap.Glyphs imgs) →
  h2 !! labels2 = Some (Heap.Labels ls) →
  match Heap.compose imresize images1 labels1 h1,
        Heap.compose imresize images2 labels2 h2 with
  | Ok (canvas1, label1, h1'), Ok (canvas2, label2, h2') =>
      (h1 ⊆ h1' ∧ h1 !! canvas1 = None ∧ h1 !! label1 = None) ∧
      (h2 ⊆ h2' ∧ h2 !! canvas2 = None ∧ h2 !! label2 = None) ∧
      ∃ canvas label,
        compose imresize imgs ls = Ok (canvas, label) ∧
        h1' !! canvas1 = Some (Heap.Pixels canvas) ∧
        h2' !! canvas2 = Some (Heap.Pixels canvas) ∧
        h1' !! label1 = Some (Heap.Labels label) ∧
        h2' !! label2 = Some (Heap.Labels label)
  | Raise e1, Raise e2 => e1 = e2 ∧ compose imresize imgs ls = Raise e1
  | _, _ => False
  end.
Proof.
  intros Himages1 Hlabels1 Himages2 Hlabels2.
  pose proof (compose_refines imresize images1 labels1 imgs ls h1
                Himages1 Hlabels1) as H1.
  pose proof (compose_refines imresize images2 labels2 imgs ls h2
                Himages2 Hlabels2) as H2.
  destruct (compose imresize imgs ls) as [[canvas label]|e].
  - destruct H1 as (c1 & l1 & h1' & -> & ? & ? & ? & ? & ?).
    destruct H2 as (c2 & l2 & h2' & -> & ? & ? & ? & ? & ?).
    split; [done|]. split; [done|]. by exists canvas, label.
  - by rewrite H1, H2.
Qed.

Lemma compose_deterministic_witness :
  match Heap.compose Run.flat_resize 0 1 Run.store1,
        Heap.compose Run.flat_resize 3 0 Run.store2 with
  | Ok (canvas1, label1, h1'), Ok (canvas2, label2, h2') =>
      (Run.store1 ⊆ h1' ∧
       Run.store1 !! canvas1 = None ∧ Run.store1 !! label1 = None) ∧
      (Run.store2 ⊆ h2' ∧
       Run.store2 !! canvas2 = None ∧ Run.store2 !! label2 = None) ∧
      ∃ canvas label,
        compose Run.flat_resize [x01; x02] [7; 8] = Ok (canvas, label) ∧
        h1' !! canvas1 = Some (Heap.Pixels canvas) ∧
        h2' !! canvas2 = Some (Heap.Pixels canvas) ∧
        h1' !! label1 = Some (Heap.Labels label) ∧
        h2' !! label2 = Some (Heap.Labels label)
  | Raise e1, Raise e2 =>
      e1 = e2 ∧ compose Run.flat_resize [x01; x02] [7; 8] = Raise e1
  | _, _ => False
  end.
Proof.
  apply (compose_deterministic Run.flat_resize Run.store1 Run.store2 0 1 3 0
           [x01; x02] [7; 8]); vm_compute; reflexivity.
Defined.

(** * Further properties of the code *)

(** ** The compositor, whatever the glyphs scale to *)

(** X1. Whatever the number of glyphs and whatever [imresize] returns for
    them, [concat_images] either returns a canvas of exactly 64 x 64 or
    raises ValueError: it raises no other exception and returns no canvas of
    another shape. *)
Theorem concat_images_canvas_or_ValueError {glyph}
    (imresize : glyph → Q → raster) (images : list glyph) :
  match concat_images imresize images with
  | Ok canvas => has_shape 64 64 canvas
  | Raise e => e = ValueError
  end.
Proof. apply concat_images_outcome. Qed.

(** A block of another shape than 12 x 12, a single row, a single column or
    a single pixel does not broadcast to 12 x 12. *)
Lemma broadcast_to_mismatch h w v :
  has_shape h w v →
  ¬ ((h = 12 ∨ h = 1) ∧ (w = 12 ∨ w = 1))%nat →
  broadcast_to 12 12 v = None.
Proof.
  intros [Hh Hw] Hbad. unfold broadcast_to.
  destruct (stretch 12 v) as [rows|] eqn:Hrows; simpl; [|done].
  apply mapM_None, Exists_exists.
  assert (∃ row, row ∈ rows ∧ length row = w ∧ w ≠ 12%nat ∧ w ≠ 1%nat)
    as (row & Hin & Hlen & Hw12 & Hw1).
  { unfold stretch in Hrows. case_decide as Hv.
    - injection Hrows as <-. destruct v as [|row v]; [done|].
      exists row. split; [left|]. inversion Hw; subst. simpl in *. lia.
    - destruct v as [|row [|? v]]; try done. injection Hrows as <-.
      exists row. split; [left|]. inversion Hw; subst. simpl in *. lia. }
  exists row. split; [done|]. unfold stretch.
  case_decide; [lia|]. by destruct row as [|? [|? row]].
Qed.

(** X2. One glyph that does not scale to 12 x 12 (nor to a single row,
    column or pixel, which numpy would repeat) among at most [max_digits]
    makes [concat_images] raise ValueError: the mismatch is never written
    into the canvas. *)
Theorem concat_images_rejects_misscaled_glyph {glyph}
    (imresize : glyph → Q → raster) (images : list glyph) i img h w :
  (length images ≤ max_digits)%nat →
  images !! i = Some img →
  has_shape h w (imresize img scale) →
  ¬ ((h = 12 ∨ h = 1) ∧ (w = 12 ∨ w = 1))%nat →
  concat_images imresize images = Raise ValueError.
Proof.
  intros Hnum Himg Hshape Hbad. unfold concat_images.
  pose proof (lookup_lt_Some _ _ _ Himg) as Hi.
  destruct (for_each_raises
    (has_shape (Z.to_nat height) (Z.to_nat width)) (λ e, e = ValueError)
    (λ i new_image,
       image <- getitem images i ;;
       setitem_slice new_image (y_pad, height - y_pad)
         (x_offset (length images) i,
          x_offset (length images) i + new_width)
         (imresize image scale))
    (range 0 (length images)) i)
    with (s := zeros (Z.to_nat height) (Z.to_nat width))
    as (e & Hrun & ->); [| | |apply has_shape_zeros|done].
  - apply elem_of_range. lia.
  - intros a Ha. unfold getitem. rewrite Himg. cbn [bind].
    rewrite setitem_slice_canvas, glyph_rows_eq, glyph_cols_eq by done.
    cbn [fst snd]. change (Z.to_nat new_height) with 12%nat.
    change (Z.to_nat new_width) with 12%nat.
    rewrite (broadcast_to_mismatch h w) by done. by eexists.
  - intros j a Hj Ha. apply elem_of_range in Hj.
    destruct (lookup_lt_is_Some_2 images j) as [img' Himg']; [lia|].
    unfold getitem. rewrite Himg'. cbn [bind].
    rewrite setitem_slice_canvas by done.
    destruct (broadcast_to _ _ _); [by apply has_shape_paste|done].
Qed.

Lemma concat_images_rejects_misscaled_glyph_witness :
  concat_images Run.odd_resize [x01; xff; x02] = Raise ValueError.
Proof.
  apply (concat_images_rejects_misscaled_glyph Run.odd_resize
           [x01; xff; x02] 1 xff 13 13).
  - vm_compute. lia.
  - reflexivity.
  - split; [reflexivity|]. vm_compute. repeat constructor.
  - lia.
Defined.

(** ** The canvas is the centred concatenation of the scaled glyphs *)

(** Two arrays of one shape with the same pixels are the same array. *)
Lemma raster_ext h w (a b : raster) :
  has_shape h w a → has_shape h w b →
  (∀ r c, (r < h)%nat → (c < w)%nat → pixel a r c = pixel b r c) →
  a = b.
Proof.
  intros [Ha Hwa] [Hb Hwb] Hpx.
  apply (list_eq_same_length _ _ h); [done..|].
  intros r rowa rowb Hr Hrowa Hrowb.
  rewrite Forall_lookup in Hwa, Hwb.
  apply (list_eq_same_length _ _ w); [by eapply Hwb|by eapply Hwa|].
  intros c x y Hc Hx Hy.
  specialize (Hpx r c Hr Hc). unfold pixel in Hpx.
  rewrite Hrowa, Hrowb in Hpx. simpl in Hpx. congruence.
Qed.

Lemma has_shape_hstack h (blocks : list raster) :
  Forall (has_shape h 12) blocks →
  has_shape h (12 * length blocks) (hstack h blocks).
Proof.
  intros Hblocks. split.
  - unfold hstack. by rewrite length_fmap, length_range, Nat.sub_0_r.
  - unfold hstack. apply Forall_fmap, Forall_forall. intros r Hr.
    apply elem_of_range in Hr. simpl.
    induction Hblocks as [|block blocks [Hh Hw] _ IH]; [done|].
    rewrite bind_cons, length_app, IH.
    destruct (lookup_lt_is_Some_2 block r) as [row Hrow]; [lia|].
    rewrite Hrow. simpl. rewrite Forall_lookup in Hw.
    rewrite (Hw _ _ Hrow). lia.
Qed.

(** Column [i * 12 + c] of the concatenation is column [c] of block [i]. *)
Lemma pixel_hstack h (blocks : list raster) i block r c :
  Forall (has_shape h 12) blocks →
  blocks !! i = Some block → (r < h)%nat → (c < 12)%nat →
  pixel (hstack h blocks) r (i * 12 + c) = pixel block r c.
Proof.
  intros Hblocks Hi Hr Hc. unfold pixel at 1, hstack.
  rewrite list_lookup_fmap.
  unfold range. rewrite lookup_seq_lt by lia. simpl.
  revert i Hi. induction Hblocks as [|b blocks [Hh Hw] _ IH]; intros i Hi;
    [done|].
  rewrite bind_cons.
  destruct (lookup_lt_is_Some_2 b r) as [row Hrow]; [lia|].
  rewrite Hrow. simpl. rewrite Forall_lookup in Hw.
  pose proof (Hw _ _ Hrow) as Hlen.
  destruct i as [|i]; simpl in Hi.
  - injection Hi as ->. rewrite lookup_app_l by lia.
    replace (0 * 12 + c)%nat with c by lia.
    unfold pixel. by rewrite Hrow.
  - rewrite lookup_app_r by lia.
    replace (S i * 12 + c - length row)%nat with (i * 12 + c)%nat by lia.
    by apply IH.
Qed.

Lemma has_shape_band num canvas :
  (num ≤ 5)%nat →
  has_shape (Z.to_nat height) (Z.to_nat width) canvas →
  has_shape 12 (12 * num) (band num canvas).
Proof.
  intros Hnum [Hh Hw]. unfold band. rewrite x_pad_eq, y_pad_eq.
  unfold height, width in *. split.
  - rewrite length_fmap, length_take, length_drop. lia.
  - apply Forall_fmap, Forall_take, Forall_drop.
    eapply Forall_impl; [exact Hw|]. intros row Hrow. simpl. cbv beta in Hrow.
    rewrite length_take, length_drop. lia.
Qed.

Lemma pixel_band num canvas r c :
  (num ≤ 5)%nat → (r < 12)%nat → (c < 12 * num)%nat →
  pixel (band num canvas) r c =
  pixel canvas (Z.to_nat y_pad + r) (Z.to_nat (x_pad num) + c).
Proof.
  intros Hnum Hr Hc. unfold pixel, band.
  rewrite list_lookup_fmap, lookup_take_lt, lookup_drop
    by (rewrite y_pad_eq; unfold height; lia).
  destruct (canvas !! _) as [row|]; simpl; [|done].
  rewrite lookup_take_lt, lookup_drop; [done|].
  rewrite x_pad_eq. unfold width. lia.
Qed.

(** X3. For at most [max_digits] glyphs that scale to 12 x 12, the canvas
    that [concat_images] returns is the horizontal concatenation of the
    scaled glyphs, in the order given, inside margins of background: [y_pad]
    rows above and below it and [x_pad] columns to its left and to its
    right. *)
Theorem canvas_is_centred_hstack {glyph} (imresize : glyph → Q → raster)
    (images : list glyph) :
  (length images ≤ max_digits)%nat →
  scaled_to_footprint imresize images →
  ∃ canvas,
    concat_images imresize images = Ok canvas ∧
    band (length images) canvas =
      hstack 12 ((λ img, imresize img scale) <$> images) ∧
    ∀ r c,
      (r < Z.to_nat height)%nat → (c < Z.to_nat width)%nat →
      (Z.of_nat r < y_pad ∨ height - y_pad ≤ Z.of_nat r ∨
       Z.of_nat c < x_pad (length images) ∨
       width - x_pad (length images) ≤ Z.of_nat c) →
      pixel canvas r c = Some x00.
Proof.
  intros Hnum Hscaled.
  destruct (concat_images_placed imresize images Hnum Hscaled)
    as (canvas & Hrun & Hshape & Hglyphs & Hback).
  exists canvas. split; [done|]. split.
  - assert (Hblocks : Forall (has_shape 12 12)
                        ((λ img, imresize img scale) <$> images)).
    { by apply Forall_fmap. }
    eapply raster_ext; [by apply has_shape_band| |].
    { pose proof (has_shape_hstack 12 _ Hblocks) as Hh.
      by rewrite length_fmap in Hh. }
    intros r c Hr Hc. rewrite pixel_band by done.
    assert (c `div` 12 < length images)%nat as Hi.
    { apply Nat.Div0.div_lt_upper_bound. lia. }
    destruct (lookup_lt_is_Some_2 images (c `div` 12)) as [img Himg];
      [done|].
    pose proof (Nat.Div0.div_mod c 12) as Hdiv.
    pose proof (Nat.mod_upper_bound c 12 ltac:(lia)) as Hmod.
    replace c with (c `div` 12 * 12 + c `mod` 12)%nat at 2 by lia.
    rewrite (pixel_hstack 12 _ (c `div` 12) (imresize img scale));
      [|done|by rewrite list_lookup_fmap, Himg|done|done].
    rewrite <- (Hglyphs (c `div` 12)%nat img r (c `mod` 12)%nat)
      by (done || unfold new_height, new_width; lia).
    f_equal. rewrite x_offset_eq, x_pad_eq. unfold max_digits in Hnum. lia.
  - intros r c Hr Hc Hout. apply Hback; [done..|].
    rewrite y_pad_eq, x_pad_eq in *.
    unfold height, width, new_height, new_width in *. lia.
Qed.

Lemma canvas_is_centred_hstack_witness :
  ∃ canvas,
    concat_images Run.flat_resize [x01; x02; x03] = Ok canvas ∧
    band 3 canvas =
      hstack 12 ((λ img, Run.flat_resize img scale) <$> [x01; x02; x03]) ∧
    ∀ r c,
      (r < Z.to_nat height)%nat → (c < Z.to_nat width)%nat →
      (Z.of_nat r < y_pad ∨ height - y_pad ≤ Z.of_nat r ∨
       Z.of_nat c < x_pad 3 ∨ width - x_pad 3 ≤ Z.of_nat c) →
      pixel canvas r c = Some x00.
Proof.
  apply (canvas_is_centred_hstack Run.flat_resize [x01; x02; x03]).
  - vm_compute. lia.
  - apply flat_resize_footprint.
Defined.

(** ** The label vector, for any number of slots *)

(** X4. The vector that [concat_labels] returns, for labels held in an array
    of ints as [labels[selection]] is, and for any number of slots: it has
    exactly that many slots, the labels followed by 10 in every slot that is
    left when the labels are fewer, and the first [num_images] labels alone
    when they are more, the others being dropped without a word. *)
Theorem concat_labels_pads_or_truncates (labels : list Z) (num_images : nat) :
  length (concat_labels labels num_images) = num_images ∧
  ((length labels ≤ num_images)%nat →
     concat_labels labels num_images =
       labels ++ replicate (num_images - length labels) 10) ∧
  ((num_images ≤ length labels)%nat →
     concat_labels labels num_images = take num_images labels).
Proof.
  split; [apply length_concat_labels|]. rewrite concat_labels_eq. split.
  - intros Hlen. by rewrite take_ge.
  - intros Hlen. replace (num_images - length labels)%nat with 0%nat by lia.
    apply app_nil_r.
Qed.

Lemma concat_labels_pads_or_truncates_witness :
  concat_labels [3; 1; 4] 5 = [3; 1; 4] ++ replicate (5 - 3) 10 ∧
  concat_labels [3; 1; 4; 1; 5; 9; 2] 5 = take 5 [3; 1; 4; 1; 5; 9; 2].
Proof.
  split.
  - apply (concat_labels_pads_or_truncates [3; 1; 4] 5). simpl. lia.
  - apply (concat_labels_pads_or_truncates [3; 1; 4; 1; 5; 9; 2] 5).
    simpl. lia.
Defined.

Lemma filter_not_filler (labels : list Z) :
  Forall (λ l, l ≠ 10) labels → filter (λ v, v ≠ 10) labels = labels.
Proof.
  induction 1 as [|l ls Hl _ IH]; [done|].
  by rewrite filter_cons_True, IH.
Qed.

Lemma filter_filler k : filter (λ v : Z, v ≠ 10) (replicate k 10) = [].
Proof.
  induction k as [|k IH]; [done|]. simpl.
  by rewrite filter_cons_False by (by intros []).
Qed.

(** X5. The label vector can be read back: for labels that fit the slots
    and are not the filler 10 (digits are not), the count of slots that are
    not 10, which is how the notebook measures a sequence, is the number of
    labels, and the slots before that count are the labels. *)
Theorem concat_labels_decodes (labels : list Z) (num_images : nat) :
  Forall (λ l, l ≠ 10) labels →
  (length labels ≤ num_images)%nat →
  sequence_length (concat_labels labels num_images) = length labels ∧
  take (sequence_length (concat_labels labels num_images))
    (concat_labels labels num_images) = labels ∧
  filter (λ v, v ≠ 10) (concat_labels labels num_images) = labels.
Proof.
  intros Hdigits Hlen.
  assert (Hfilter : filter (λ v, v ≠ 10) (concat_labels labels num_images)
                    = labels).
  { rewrite concat_labels_eq, take_ge, filter_app by lia.
    rewrite filter_not_filler, filter_filler by done. apply app_nil_r. }
  assert (Hcount : sequence_length (concat_labels labels num_images)
                   = length labels).
  { unfold sequence_length. by rewrite Hfilter. }
  split; [done|]. split; [|done].
  rewrite Hcount, concat_labels_eq, (take_ge labels) by done.
  apply take_app_length.
Qed.

Lemma concat_labels_decodes_witness :
  sequence_length (concat_labels [0; 7; 7] 5) = 3%nat ∧
  take (sequence_length (concat_labels [0; 7; 7] 5))
    (concat_labels [0; 7; 7] 5) = [0; 7; 7] ∧
  filter (λ v, v ≠ 10) (concat_labels [0; 7; 7] 5) = [0; 7; 7].
Proof.
  apply (concat_labels_decodes [0; 7; 7] 5).
  - repeat constructor; lia.
  - simpl. lia.
Defined.

(** X6. A label 10 at the end of the input cannot be told from padding:
    whatever the number of slots, appending 10s to the labels leaves the
    label vector as it is. *)
Theorem concat_labels_absorbs_trailing_filler (labels : list Z)
    (k num_images : nat) :
  concat_labels (labels ++ replicate k 10) num_images =
  concat_labels labels num_images.
Proof.
  rewrite !concat_labels_eq, take_app, <- app_assoc. f_equal.
  rewrite take_replicate, <- replicate_add, length_app, length_replicate.
  f_equal. lia.
Qed.

(** ** The dataset, whatever the corpus *)

Lemma shape3_expand_canvas (canvas : raster) :
  has_shape 64 64 canvas → shape3 (expand_canvas canvas) = (64, 64, 1)%nat.
Proof.
  intros [Hh Hw]. destruct canvas as [|row canvas]; [done|].
  pose proof (Forall_inv Hw) as Hrow.
  destruct row as [|px row]; [done|].
  unfold shape3, expand_canvas. simpl.
  rewrite !length_fmap. simpl in Hh, Hrow. by rewrite Hh, Hrow.
Qed.

(** Every row of the two arrays that a run returns has the shape it was
    allocated with. *)
Lemma generate_loop_shaped {glyph rng} (imresize : glyph → Q → raster)
    (random_sample : list nat → nat → rng → result (list nat * rng))
    (data : list glyph) (labels : list Z) (n : nat) (g : rng) s :
  generate_loop imresize random_sample data labels n g = Ok s →
  length (X s) = n ∧ length (y s) = n ∧
  Forall (has_shape 64 64) (X s) ∧
  Forall (λ row, length row = max_digits) (y s).
Proof.
  intros Hrun.
  pose (P := λ s : @state rng,
    length (X s) = n ∧ length (y s) = n ∧
    Forall (has_shape 64 64) (X s) ∧
    Forall (λ row, length row = max_digits) (y s)).
  apply (for_each_preserves P _ _) with (s' := s) in Hrun; [done| |].
  - intros i s1 s2 _ Hs1 Hgroup.
    apply (for_each_preserves P _ _) with (s' := s2) in Hgroup; [done| |done].
    intros j t t' _ (HX & Hy & HXs & Hys). unfold draw_sample.
    destruct (random_sample _ _ _) as [[sel g']|e]; cbn [bind]; [|done].
    destruct (gather data _); cbn [bind]; [|done].
    pose proof (concat_images_outcome imresize a) as Hcanvas.
    destruct (concat_images imresize a) as [canvas|]; cbn [bind]; [|done].
    unfold setitem. case_decide; cbn [bind]; [|done].
    destruct (gather labels _); cbn [bind]; [|done].
    case_decide; cbn [bind]; [|done].
    intros [= <-]. unfold P. cbn [X y].
    rewrite !length_insert. split; [done|]. split; [done|].
    split; apply Forall_insert; try done.
    rewrite length_fmap. apply length_concat_labels.
  - unfold P. cbn [X y]. rewrite !length_replicate.
    split; [done|]. split; [done|].
    split; apply Forall_replicate; [apply has_shape_zeros|].
    apply length_replicate.
Qed.

(** X7. Whatever the corpus and the target size, a dataset that the
    generator returns has [n] images of shape [(64, 64, 1)], each a canvas of
    64 x 64 with its axis of channels, and [n] label vectors of
    [max_digits] slots: the rows never drawn included. *)
Theorem generate_output_shapes {glyph rng} (imresize : glyph → Q → raster)
    (random_sample : list nat → nat → rng → result (list nat * rng))
    (data : list glyph) (labels : list Z) (n : nat) (g : rng) Xs ys g' :
  generate_digit_sequences imresize random_sample data labels n g =
    Ok (Xs, ys, g') →
  length Xs = n ∧ length ys = n ∧
  Forall (λ img,
    shape3 img = (64, 64, 1)%nat ∧
    ∃ canvas, has_shape 64 64 canvas ∧ img = expand_canvas canvas) Xs ∧
  Forall (λ row, length row = max_digits) ys.
Proof.
  unfold generate_digit_sequences.
  destruct (generate_loop _ _ _ _ _ _) as [s|] eqn:Hrun; cbn [bind]; [|done].
  intros [= <- <- <-].
  destruct (generate_loop_shaped _ _ _ _ _ _ _ Hrun) as (HX & Hy & HXs & Hys).
  split; [unfold expand_dims; by rewrite length_fmap|]. split; [done|].
  split; [|done]. unfold expand_dims. apply Forall_fmap.
  eapply Forall_impl; [exact HXs|]. intros canvas Hcanvas. simpl.
  split; [by apply shape3_expand_canvas|by exists canvas].
Qed.

Lemma generate_output_shapes_witness :
  match generate_digit_sequences Run.flat_resize Run.rotating_sample
          Run.corpus Run.corpus_labels 7 0%nat with
  | Ok (Xs, ys, _) =>
      length Xs = 7%nat ∧ length ys = 7%nat ∧
      Forall (λ img,
        shape3 img = (64, 64, 1)%nat ∧
        ∃ canvas, has_shape 64 64 canvas ∧ img = expand_canvas canvas) Xs ∧
      Forall (λ row, length row = max_digits) ys
  | Raise _ => False
  end.
Proof.
  destruct (generate_digit_sequences Run.flat_resize Run.rotating_sample
              Run.corpus Run.corpus_labels 7 0%nat)
    as [[[Xs ys] g']|e] eqn:Hrun.
  - exact (generate_output_shapes _ _ _ _ _ _ _ _ _ Hrun).
  - vm_compute in Hrun. discriminate Hrun.
Defined.

Lemma to_int32_slot v : 0 ≤ v ≤ 10 → 0 ≤ to_int32 v ≤ 10.
Proof. intros Hv. by rewrite to_int32_digit. Qed.

(** X9. For a corpus whose labels are digits, every slot of every label
    vector of a dataset that the generator returns holds a value from 0 to
    10: eleven classes are enough for each position. *)
Theorem generate_labels_in_range {glyph rng} (imresize : glyph → Q → raster)
    (random_sample : list nat → nat → rng → result (list nat * rng))
    (data : list glyph) (labels : list Z) (n : nat) (g : rng) Xs ys g' :
  Forall (λ l, 0 ≤ l ≤ 9) labels →
  generate_digit_sequences imresize random_sample data labels n g =
    Ok (Xs, ys, g') →
  Forall (Forall (λ v, 0 ≤ v ≤ 10)) ys.
Proof.
  intros Hdigits. unfold generate_digit_sequences.
  destruct (generate_loop _ _ _ _ _ _) as [s|] eqn:Hrun; cbn [bind]; [|done].
  intros [= <- <- <-].
  pose (P := λ s : @state rng, Forall (Forall (λ v, 0 ≤ v ≤ 10)) (y s)).
  apply (for_each_preserves P _ _) with (s' := s) in Hrun; [done| |].
  - intros i s1 s2 _ Hs1 Hgroup.
    apply (for_each_preserves P _ _) with (s' := s2) in Hgroup; [done| |done].
    intros j t t' _ Ht. unfold draw_sample.
    destruct (random_sample _ _ _) as [[sel g'']|e]; cbn [bind]; [|done].
    destruct (gather data _); cbn [bind]; [|done].
    destruct (concat_images imresize _); cbn [bind]; [|done].
    unfold setitem. case_decide; cbn [bind]; [|done].
    destruct (gather labels _) as [sel_labels|] eqn:Hgather; cbn [bind];
      [|done].
    case_decide; cbn [bind]; [|done].
    intros [= <-]. unfold P. cbn [y]. apply Forall_insert; [done|].
    apply gather_Ok_inv in Hgather as [_ Hin].
    rewrite concat_labels_eq. apply Forall_fmap, Forall_app. split.
    + apply Forall_take. eapply Forall_impl; [exact Hin|].
      intros l Hl. simpl. apply to_int32_slot.
      rewrite Forall_forall in Hdigits. specialize (Hdigits l Hl). lia.
    + apply Forall_replicate. simpl. by apply to_int32_slot.
  - unfold P. cbn [y]. apply Forall_replicate, Forall_replicate. lia.
Qed.

Lemma generate_labels_in_range_witness :
  match generate_digit_sequences Run.flat_resize Run.rotating_sample
          Run.corpus Run.corpus_labels 7 0%nat with
  | Ok (_, ys, _) => Forall (Forall (λ v, 0 ≤ v ≤ 10)) ys
  | Raise _ => False
  end.
Proof.
  destruct (generate_digit_sequences Run.flat_resize Run.rotating_sample
              Run.corpus Run.corpus_labels 7 0%nat)
    as [[[Xs ys] g']|e] eqn:Hrun.
  - exact (generate_labels_in_range _ _ _ _ _ _ _ _ _
             run_labels_digits Hrun).
  - vm_compute in Hrun. discriminate Hrun.
Defined.

(** ** What a row is made of *)

(** Entry [k] of [a[selection]] is the entry of [a] at index
    [selection[k]]. *)
Lemma gather_lookup {A} (a : list A) selection xs k i :
  gather a selection = Ok xs → selection !! k = Some i →
  xs !! k = a !! i.
Proof.
  revert xs k. induction selection as [|i0 selection IH]; intros xs k;
    simpl; [done|].
  unfold getitem. destruct (a !! i0) as [x|] eqn:Hx; cbn [bind]; [|done].
  destruct (gather a selection) as [xs'|]; cbn [bind]; [|done].
  intros [= <-] Hk. destruct k as [|k]; simpl in *.
  - by injection Hk as <-.
  - by apply IH.
Qed.

Lemma gather_in_range {A} (a : list A) selection xs :
  gather a selection = Ok xs →
  Forall (λ i, (i < length a)%nat) selection.
Proof.
  revert xs. induction selection as [|i selection IH]; intros xs; simpl;
    [done|].
  unfold getitem. destruct (a !! i) as [x|] eqn:Hx; cbn [bind]; [|done].
  destruct (gather a selection) as [xs'|]; cbn [bind]; [|done].
  intros _. constructor; [by eapply lookup_lt_Some|by eapply IH].
Qed.

Lemma fmap_to_int32_slots (row : list Z) :
  Forall (λ v, 0 ≤ v ≤ 10) row → to_int32 <$> row = row.
Proof.
  induction 1 as [|v row Hv _ IH]; [done|].
  rewrite fmap_cons. by rewrite to_int32_digit, IH.
Qed.

(** X8. Image and label of a row agree. Under the contracts of the corpus
    and of [random.sample], the row of every sample drawn is [compose] of
    the glyphs and the labels at the indices drawn, in the order drawn: the
    image is that canvas with its axis of channels, and the label vector is
    the labels of these very glyphs, then 10s. *)
Theorem generate_rows_from_draws {glyph rng} (imresize : glyph → Q → raster)
    (random_sample : list nat → nat → rng → result (list nat * rng))
    (data : list glyph) (labels : list Z) (n : nat) (g : rng) :
  sample_contract random_sample →
  scaled_to_footprint imresize data →
  length labels = length data →
  Forall (λ l, 0 ≤ l ≤ 9) labels →
  (max_digits ≤ length data)%nat →
  ∃ s,
    generate_loop imresize random_sample data labels n g = Ok s ∧
    generate_digit_sequences imresize random_sample data labels n g =
      Ok (expand_dims (X s), y s, gen s) ∧
    ∀ j sel, drawn s !! j = Some sel →
      ∃ images sel_labels canvas,
        length images = length sel ∧ length sel_labels = length sel ∧
        (∀ k i, sel !! k = Some i →
           images !! k = data !! i ∧ sel_labels !! k = labels !! i) ∧
        compose imresize images sel_labels =
          Ok (canvas,
              sel_labels ++ replicate (max_digits - length sel) 10) ∧
        expand_dims (X s) !! j = Some (expand_canvas canvas) ∧
        y s !! j =
          Some (sel_labels ++ replicate (max_digits - length sel) 10).
Proof.
  intros Hcontract Hscaled Hparallel Hdigits Hcorpus.
  destruct (generate_loop_filled imresize random_sample data labels n
              Hcontract Hscaled Hparallel g Hcorpus)
    as (s & Hrun & _ & _ & Hdrawn & Hrows & _).
  exists s. split; [done|].
  split; [unfold generate_digit_sequences; by rewrite Hrun|].
  intros j sel Hsel.
  destruct (Hrows j sel Hsel)
    as (Hlen & _ & images & sel_labels & canvas
        & Himages & Hlabels & Hcanvas & HX & Hy).
  pose proof (gather_Ok_inv _ _ _ Himages) as [Hli _].
  pose proof (gather_Ok_inv _ _ _ Hlabels) as [Hll Hin].
  assert (length sel ≤ 5)%nat as Hfive.
  { apply lookup_lt_Some in Hsel. rewrite Hlen.
    assert (j / (n / max_digits) < max_digits)%nat;
      [|unfold max_digits in *; lia].
    apply Nat.Div0.div_lt_upper_bound. lia. }
  assert (concat_labels sel_labels 5 =
          sel_labels ++ replicate (max_digits - length sel) 10) as Hvector.
  { rewrite concat_labels_eq, take_ge, Hll by lia. done. }
  exists images, sel_labels, canvas.
  split; [done|]. split; [done|]. split.
  { intros k i Hk. split; by eapply gather_lookup. }
  split; [unfold compose; by rewrite Hcanvas, Hvector|].
  split; [unfold expand_dims; by rewrite list_lookup_fmap, HX|].
  rewrite Hy, Hvector. f_equal. apply fmap_to_int32_slots.
  apply Forall_app. split.
  - eapply Forall_impl; [exact Hin|]. intros l Hl. simpl.
    rewrite Forall_forall in Hdigits. specialize (Hdigits l Hl). lia.
  - apply Forall_replicate. lia.
Qed.

Lemma generate_rows_from_draws_witness :
  ∃ s,
    generate_loop Run.flat_resize Run.rotating_sample
      Run.corpus Run.corpus_labels 10 0%nat = Ok s ∧
    generate_digit_sequences Run.flat_resize Run.rotating_sample
      Run.corpus Run.corpus_labels 10 0%nat =
      Ok (expand_dims (X s), y s, gen s) ∧
    ∀ j sel, drawn s !! j = Some sel →
      ∃ images sel_labels canvas,
        length images = length sel ∧ length sel_labels = length sel ∧
        (∀ k i, sel !! k = Some i →
           images !! k = Run.corpus !! i ∧
           sel_labels !! k = Run.corpus_labels !! i) ∧
        compose Run.flat_resize images sel_labels =
          Ok (canvas,
              sel_labels ++ replicate (max_digits - length sel) 10) ∧
        expand_dims (X s) !! j = Some (expand_canvas canvas) ∧
        y s !! j =
          Some (sel_labels ++ replicate (max_digits - length sel) 10).
Proof.
  apply (generate_rows_from_draws Run.flat_resize Run.rotating_sample
           Run.corpus Run.corpus_labels 10 0%nat).
  - apply rotating_sample_contract.
  - apply flat_resize_footprint.
  - reflexivity.
  - apply run_labels_digits.
  - vm_compute. lia.
Defined.

(** ** Labels that are never read, labels that are missing *)

Lemma for_each_ext {St} (body1 body2 : nat → St → result St) idx s :
  (∀ i s, body1 i s = body2 i s) →
  for_each body1 idx s = for_each body2 idx s.
Proof.
  intros Hext. revert s. induction idx as [|i idx IH]; intros s; simpl;
    [done|].
  rewrite Hext. destruct (body2 i s); simpl; auto.
Qed.

Lemma gather_take {A} (a : list A) len selection :
  Forall (λ i, (i < len)%nat) selection →
  gather (take len a) selection = gather a selection.
Proof.
  induction 1 as [|i selection Hi _ IH]; simpl; [done|].
  unfold getitem. by rewrite lookup_take_lt, IH.
Qed.

(** X10. The generator never reads a label beyond the length of the
    corpus: with the labels cut to the length of [data], it returns the same
    dataset or raises the same exception, whatever the sampler does. *)
Theorem generate_ignores_extra_labels {glyph rng}
    (imresize : glyph → Q → raster)
    (random_sample : list nat → nat → rng → result (list nat * rng))
    (data : list glyph) (labels : list Z) (n : nat) (g : rng) :
  generate_digit_sequences imresize random_sample data labels n g =
  generate_digit_sequences imresize random_sample data
    (take (length data) labels) n g.
Proof.
  unfold generate_digit_sequences, generate_loop. f_equal.
  apply for_each_ext. intros i s. unfold fill_group.
  apply for_each_ext. intros j t. unfold draw_sample.
  destruct (random_sample _ _ _) as [[sel g']|e]; cbn [bind fst snd]; [|done].
  destruct (gather data sel) as [images|] eqn:Hgather; cbn [bind]; [|done].
  by rewrite (gather_take labels) by (by eapply gather_in_range).
Qed.

(** X11. The exceptions of the generator. Given a label for every glyph of
    the corpus, ValueError is the only exception it can raise (from
    [random.sample], or from a glyph that does not fit its block). Without
    any label, and with glyphs to draw from, it raises IndexError at the
    first sample, once the canvas of that sample has been composed. *)
Theorem generate_exceptions {glyph rng} (imresize : glyph → Q → raster)
    (random_sample : list nat → nat → rng → result (list nat * rng))
    (data : list glyph) (labels : list Z) (n : nat) (g : rng) :
  sample_contract random_sample →
  ((length data ≤ length labels)%nat →
     match generate_digit_sequences imresize random_sample data labels n g
     with
     | Ok _ => True
     | Raise e => e = ValueError
     end) ∧
  (labels = [] → scaled_to_footprint imresize data →
   (1 ≤ length data)%nat → (max_digits ≤ n)%nat →
     generate_digit_sequences imresize random_sample data labels n g =
       Raise IndexError).
Proof.
  intros Hcontract. split.
  - intros Hlabels. unfold generate_digit_sequences, generate_loop.
    pose (P := λ s : @state rng, length (X s) = n ∧ length (y s) = n).
    pose proof (for_each_outcome P (λ e, e = ValueError)
      (λ i s, fill_group imresize random_sample data labels
                (n / max_digits) i s)
      (range 1 (max_digits + 1))) as Hloop.
    match goal with
    | |- context [for_each _ _ ?s0] => specialize (λ H, Hloop H s0)
    end.
    match type of Hloop with
    | ?Q → _ → _ => assert Q as Hbody
    end.
    { intros i s Hi Hs. apply elem_of_range in Hi. unfold fill_group.
      apply (for_each_outcome P (λ e, e = ValueError)); [|done].
      intros j t Hj [HX Hy]. apply elem_of_range in Hj.
      pose proof (groups_fit n i ltac:(lia)) as Hfit.
      unfold draw_sample.
      pose proof (Hcontract (range 0 (length data)) i (gen t)) as Hsample.
      destruct (random_sample _ _ _) as [[sel g']|e]; cbn [bind fst snd];
        [|by destruct Hsample].
      destruct Hsample as (_ & _ & Hsub).
      destruct (selection_indices _ _ Hsub) as [_ Hbelow].
      destruct (gather_ok data sel Hbelow) as (images & -> & _).
      cbn [bind].
      pose proof (concat_images_outcome imresize images) as Hcanvas.
      destruct (concat_images imresize images) as [canvas|]; cbn [bind];
        [|done].
      unfold setitem. rewrite decide_True by lia. cbn [bind].
      destruct (gather_ok labels sel) as (sel_labels & -> & _).
      { eapply Forall_impl; [exact Hbelow|]. intros k Hk. simpl in *. lia. }
      cbn [bind]. rewrite decide_True by lia. cbn [bind].
      unfold P. cbn [X y]. by rewrite !length_insert. }
    specialize (Hloop Hbody).
    destruct (for_each _ _ _) as [s|e]; cbn [bind]; [done|].
    apply Hloop. unfold P. cbn [X y]. by rewrite !length_replicate.
  - intros -> Hscaled Hdata Hn.
    assert (0 < n / max_digits)%nat as Hpos.
    { apply Nat.div_str_pos. unfold max_digits in *. lia. }
    unfold generate_digit_sequences, generate_loop.
    rewrite range_nonempty by (unfold max_digits; lia). cbn [for_each].
    unfold fill_group at 1. rewrite range_nonempty by lia. cbn [for_each].
    unfold draw_sample at 1. cbn [gen X y].
    pose proof (Hcontract (range 0 (length data)) 1%nat g) as Hsample.
    destruct (random_sample _ _ _) as [[sel g']|e]; cbn [bind fst snd];
      [|rewrite length_range in Hsample; lia].
    destruct Hsample as (_ & Hlen & Hsub).
    destruct (selection_indices _ _ Hsub) as [_ Hbelow].
    destruct (gather_ok data sel Hbelow) as (images & -> & Himages & Hin).
    cbn [bind].
    destruct (concat_images_placed imresize images) as (canvas & -> & _).
    { unfold max_digits. lia. }
    { unfold scaled_to_footprint in *. rewrite Forall_forall in Hscaled.
      eapply Forall_impl; [exact Hin|]. intros img. apply Hscaled. }
    cbn [bind]. unfold setitem.
    rewrite decide_True
      by (rewrite length_replicate; unfold max_digits in *; lia).
    cbn [bind]. destruct sel as [|i sel]; [done|]. by simpl.
Qed.

Lemma generate_exceptions_witness :
  match generate_digit_sequences Run.flat_resize Run.rotating_sample
          [x01; x02] [2; 3] 10 0%nat with
  | Ok _ => True
  | Raise e => e = ValueError
  end ∧
  generate_digit_sequences Run.flat_resize Run.rotating_sample
    Run.corpus [] 10 0%nat = Raise IndexError.
Proof.
  split.
  - apply (generate_exceptions Run.flat_resize Run.rotating_sample
             [x01; x02] [2; 3] 10 0%nat);
      [apply rotating_sample_contract|simpl; lia].
  - apply (generate_exceptions Run.flat_resize Run.rotating_sample
             Run.corpus [] 10 0%nat);
      [apply rotating_sample_contract|reflexivity
      |apply flat_resize_footprint|vm_compute; lia..].
Defined.

(** ** Plotting *)

Lemma map_result_getitem0 {A} (row : list A) :
  map_result (λ px, getitem px 0) ((λ px, [px]) <$> row) = Ok row.
Proof.
  induction row as [|px row IH]; [done|].
  rewrite fmap_cons. simpl. rewrite IH. done.
Qed.

Lemma channel0_expand_canvas (a : raster) : channel0 (expand_canvas a) = Ok a.
Proof.
  unfold channel0, expand_canvas.
  induction a as [|row a IH]; [done|].
  rewrite fmap_cons. cbn [map_result].
  rewrite map_result_getitem0, IH. done.
Qed.

Lemma shown_canvas (a : raster) :
  has_shape 64 64 a → shown (Channels (expand_canvas a)) = Ok (Gray a).
Proof.
  intros Ha. unfold shown.
  rewrite decide_True by (by apply shape3_expand_canvas).
  by rewrite channel0_expand_canvas.
Qed.

(** X12. [np.expand_dims(X, axis=3)] and the [img[i, :, :, 0]] of
    [plot_images] undo each other: channel 0 of a canvas with its axis of
    channels is the canvas, so what [plot_images] shows for a 64 x 64 canvas
    of the dataset is that canvas as a 2-D array; a 3-D array of another
    shape is shown as it is. *)
Theorem expand_dims_channel0_round_trip (a : raster) :
  channel0 (expand_canvas a) = Ok a ∧
  (has_shape 64 64 a → shown (Channels (expand_canvas a)) = Ok (Gray a)) ∧
  (shape3 (expand_canvas a) ≠ (64, 64, 1)%nat →
     shown (Channels (expand_canvas a)) = Ok (Channels (expand_canvas a))).
Proof.
  split; [apply channel0_expand_canvas|]. split; [apply shown_canvas|].
  intros Hshape. unfold shown. by rewrite decide_False.
Qed.

Lemma expand_dims_channel0_round_trip_witness :
  shown (Channels (expand_canvas (zeros 64 64))) = Ok (Gray (zeros 64 64)) ∧
  shown (Channels (expand_canvas (zeros 28 28))) =
    Ok (Channels (expand_canvas (zeros 28 28))).
Proof.
  split.
  - apply (expand_dims_channel0_round_trip (zeros 64 64)).
    apply has_shape_zeros.
  - apply (expand_dims_channel0_round_trip (zeros 28 28)).
    vm_compute. discriminate.
Defined.

(** The panels of the first [k] canvases, each titled with its label. *)
Lemma plot_images_canvases {L} (canvases : list raster) (labels : list L)
    nrows ncols :
  Forall (has_shape 64 64) canvases →
  (nrows * ncols ≤ length canvases)%nat →
  (nrows * ncols ≤ length labels)%nat →
  plot_images (Channels <$> expand_dims canvases) labels nrows ncols =
    Ok (figure (min 16 (ncols * 2), min 16 (nrows * 2)) ::
        mjoin (imap (λ i p, panel nrows ncols i (Gray p.1) p.2)
                 (take (nrows * ncols) (zip canvases labels)))).
Proof.
  intros Hshapes Hcanvases Hlabels. unfold plot_images.
  generalize (figure (A:=byte) (L:=L) (min 16 (ncols * 2), min 16 (nrows * 2))).
  intros fig.
  destruct (for_each_range_inv
    (λ k calls,
       calls = fig ::
               mjoin (imap (λ i p, panel nrows ncols i (Gray p.1) p.2)
                        (take k (zip canvases labels))))
    (λ i calls,
       e <- getitem (Channels <$> expand_dims canvases) i ;;
       picture <- shown e ;;
       label <- getitem labels i ;;
       Ok (calls ++ [subplot nrows ncols (i + 1); imshow picture;
                     xticks []; yticks []; title label]))
    0 (nrows * ncols) [fig])
    as (calls & -> & ->); [lia|done| |done].
  intros k calls Hk ->.
  destruct (lookup_lt_is_Some_2 canvases k) as [canvas Hcanvas]; [lia|].
  destruct (lookup_lt_is_Some_2 labels k) as [label Hlabel]; [lia|].
  unfold getitem, expand_dims.
  rewrite !list_lookup_fmap, Hcanvas, Hlabel.
  cbn [fmap option_fmap option_map bind].
  rewrite shown_canvas by (by eapply Forall_lookup_1).
  cbn [bind]. eexists. split; [done|].
  rewrite (take_S_r _ _ (canvas, label)).
  - rewrite imap_app, join_app, length_take, length_zip.
    replace (k `min` (length canvases `min` length labels))%nat with k by lia.
    simpl. by rewrite Nat.add_0_r.
  - apply lookup_zip_with_Some. by exists canvas, label.
Qed.

(** X13. Plotting a dataset as the generator returns it, for at most as
    many panels as it has rows: after the call to [figure], panel [i] is
    drawn at position [i + 1], shows the 64 x 64 canvas of row [i] without
    its axis of channels, and is titled with the label vector of that same
    row. *)
Theorem plot_images_of_dataset {glyph rng} (imresize : glyph → Q → raster)
    (random_sample : list nat → nat → rng → result (list nat * rng))
    (data : list glyph) (labels : list Z) (n : nat) (g : rng) Xs ys g'
    (nrows ncols : nat) :
  generate_digit_sequences imresize random_sample data labels n g =
    Ok (Xs, ys, g') →
  (nrows * ncols ≤ n)%nat →
  ∃ canvases,
    Xs = expand_dims canvases ∧
    plot_images (Channels <$> Xs) ys nrows ncols =
      Ok (figure (min 16 (ncols * 2), min 16 (nrows * 2)) ::
          mjoin (imap (λ i p, panel nrows ncols i (Gray p.1) p.2)
                   (take (nrows * ncols) (zip canvases ys)))).
Proof.
  unfold generate_digit_sequences.
  destruct (generate_loop _ _ _ _ _ _) as [s|] eqn:Hrun; cbn [bind]; [|done].
  intros [= <- <- <-] Hpanels.
  destruct (generate_loop_shaped _ _ _ _ _ _ _ Hrun) as (HX & Hy & HXs & _).
  exists (X s). split; [done|].
  apply plot_images_canvases; [done|lia..].
Qed.

Lemma plot_images_of_dataset_witness :
  match generate_digit_sequences Run.flat_resize Run.rotating_sample
          Run.corpus Run.corpus_labels 7 0%nat with
  | Ok (Xs, ys, _) =>
      ∃ canvases,
        Xs = expand_dims canvases ∧
        plot_images (Channels <$> Xs) ys 2 3 =
          Ok (figure (min 16 (3 * 2), min 16 (2 * 2)) ::
              mjoin (imap (λ i p, panel 2 3 i (Gray p.1) p.2)
                       (take (2 * 3) (zip canvases ys))))
  | Raise _ => False
  end.
Proof.
  destruct (generate_digit_sequences Run.flat_resize Run.rotating_sample
              Run.corpus Run.corpus_labels 7 0%nat)
    as [[[Xs ys] g']|e] eqn:Hrun.
  - apply (plot_images_of_dataset _ _ _ _ _ _ _ _ _ 2 3 Hrun). lia.
  - vm_compute in Hrun. discriminate Hrun.
Defined.

(** X14. [plot_images] returns only when there are at least
    [nrows * ncols] images and as many labels: asked for more panels than
    there are images or labels, it does not return, [img[i]] or [labels[i]]
    raising IndexError at the first panel that lacks one if nothing is raised
    before. Which exception it leaves with is not stated, those of
    matplotlib being outside the model. *)
Theorem plot_images_bounds {A L} (img : list (entry A)) (labels : list L)
    (nrows ncols : nat) (calls : list (plt_call A L)) :
  plot_images img labels nrows ncols = Ok calls →
  (nrows * ncols ≤ length img)%nat ∧ (nrows * ncols ≤ length labels)%nat.
Proof.
  intros Hrun.
  destruct (decide (nrows * ncols ≤ length img ∧
                    nrows * ncols ≤ length labels)%nat) as [Hfit|Hshort];
    [done|].
  unfold plot_images in Hrun.
  edestruct (for_each_raises (λ _ : list (plt_call A L), True) (λ _, True)
    (λ i calls,
       e <- getitem img i ;;
       picture <- shown e ;;
       label <- getitem labels i ;;
       Ok (calls ++ [subplot nrows ncols (i + 1); imshow picture;
                     xticks []; yticks []; title label]))
    (range 0 (nrows * ncols)) (min (length img) (length labels)))
    as (e & Hraise & _); [| | |done|by rewrite Hrun in Hraise].
  - apply elem_of_range. lia.
  - intros s _. unfold getitem.
    destruct (decide (length img ≤ length labels)%nat).
    + rewrite lookup_ge_None_2 by lia. by eexists.
    + destruct (img !! _) as [e|]; cbn [bind]; [|by eexists].
      destruct (shown e); cbn [bind]; [|by eexists].
      rewrite lookup_ge_None_2 by lia. by eexists.
  - intros j s _ _. by destruct (bind _ _).
Qed.

Lemma plot_images_bounds_witness :
  match plot_images (Gray <$> [zeros 28 28; zeros 28 28; zeros 28 28])
          [3; 1; 4] 1 2 with
  | Ok _ =>
      (1 * 2 ≤ length (Gray <$> [zeros 28 28; zeros 28 28; zeros 28 28]))%nat ∧
      (1 * 2 ≤ length [3%Z; 1%Z; 4%Z])%nat
  | Raise _ => False
  end.
Proof.
  destruct (plot_images (Gray <$> [zeros 28 28; zeros 28 28; zeros 28 28])
              [3; 1; 4] 1 2) as [calls|e] eqn:Hrun.
  - apply (plot_images_bounds _ _ _ _ calls Hrun).
  - vm_compute in Hrun. discriminate Hrun.
Defined.

(** ** The validation set *)

Lemma gather_omap {A} (a : list A) selection xs :
  gather a selection = Ok xs → xs = omap (λ i, a !! i) selection.
Proof.
  revert xs. induction selection as [|i selection IH]; intros xs; simpl.
  - by intros [= <-].
  - unfold getitem. destruct (a !! i) as [x|]; cbn [bind]; [|done].
    destruct (gather a selection) as [xs'|]; cbn [bind]; [|done].
    intros [= <-]. by rewrite (IH xs').
Qed.

Lemma np_delete_omap {A} (arr : list A) (obj : list nat) :
  np_delete arr obj =
  omap (λ i, arr !! i) (filter (λ i, i ∉ obj) (range 0 (length arr))).
Proof.
  unfold np_delete. generalize (range 0 (length arr)). intros idx.
  induction idx as [|i idx IH]; [done|].
  rewrite filter_cons. simpl. destruct (decide (i ∈ obj)) as [Hin|Hin].
  - by rewrite decide_False by (by intros Hout).
  - rewrite decide_True by done. simpl.
    destruct (arr !! i); [f_equal|]; exact IH.
Qed.

Lemma omap_lookup_range {A} (a : list A) :
  omap (λ i, a !! i) (range 0 (length a)) = a.
Proof.
  unfold range. rewrite Nat.sub_0_r.
  assert (∀ k, (k ≤ length a)%nat →
            omap (λ i, a !! i) (seq 0 k) = take k a) as Htake.
  { induction k as [|k IH]; intros Hk; [done|].
    destruct (lookup_lt_is_Some_2 a k) as [x Hx]; [lia|].
    rewrite seq_S, omap_app, IH, (take_S_r _ _ x) by (done || lia).
    simpl. by rewrite Hx. }
  by rewrite Htake, take_ge by lia.
Qed.

Lemma omap_cons_Some {A B} (f : A → option B) x l y :
  f x = Some y → omap f (x :: l) = y :: omap f l.
Proof. intros Hx. simpl. by rewrite Hx. Qed.

Lemma omap_lookup_zip {A B} (a : list A) (b : list B) (idx : list nat) :
  Forall (λ i, (i < length a)%nat ∧ (i < length b)%nat) idx →
  omap (λ i, zip a b !! i) idx =
  zip (omap (λ i, a !! i) idx) (omap (λ i, b !! i) idx).
Proof.
  induction 1 as [|i idx [Ha Hb] _ IH]; [done|].
  destruct (lookup_lt_is_Some_2 a i Ha) as [x Hx].
  destruct (lookup_lt_is_Some_2 b i Hb) as [y Hy].
  rewrite (omap_cons_Some _ _ _ (x, y)), (omap_cons_Some _ _ _ x),
    (omap_cons_Some _ _ _ y), IH; [done..|].
  by rewrite lookup_zip_with, Hx, Hy.
Qed.

Lemma filter_all_eq {A} (P : A → Prop) `{∀ x, Decision (P x)} l :
  Forall P l → filter P l = l.
Proof.
  induction 1 as [|x l Hx _ IH]; [done|].
  by rewrite filter_cons_True, IH.
Qed.

Lemma filter_none_eq {A} (P : A → Prop) `{∀ x, Decision (P x)} l :
  Forall (λ x, ¬ P x) l → filter P l = [].
Proof. intros Hl. by apply nil_length_inv, length_filter_none. Qed.

(** The rows chosen and the rows left are, together, the rows there were. *)
Lemma chosen_and_rest (idx : list nat) len :
  idx ⊆+ range 0 len →
  idx ++ filter (λ i, i ∉ idx) (range 0 len) ≡ₚ range 0 len.
Proof.
  intros Hsub.
  destruct (submseteq_Permutation _ _ Hsub) as [rest Hrest].
  assert (NoDup (idx ++ rest)) as Hnodup.
  { rewrite <- Hrest. apply NoDup_seq. }
  apply NoDup_app in Hnodup as (_ & Hdisjoint & _).
  assert (filter (λ i, i ∉ idx) (range 0 len) ≡ₚ rest) as ->;
    [|by rewrite Hrest].
  rewrite Hrest, filter_app.
  rewrite filter_none_eq, filter_all_eq; [done| |].
  - apply Forall_forall. intros i Hi Hin. by apply (Hdisjoint i).
  - apply Forall_forall. intros i Hi Hout. by apply Hout.
Qed.

(** Indexing with a selection and deleting it split an array in two. *)
Lemma gather_delete_partition {A} (a : list A) (idx : list nat) xs :
  idx ⊆+ range 0 (length a) →
  gather a idx = Ok xs →
  xs ++ np_delete a idx ≡ₚ a.
Proof.
  intros Hsub Hxs.
  rewrite (gather_omap _ _ _ Hxs), np_delete_omap, <- omap_app.
  rewrite chosen_and_rest by done. by rewrite omap_lookup_range.
Qed.

Lemma np_delete_zip {A B} (a : list A) (b : list B) (idx : list nat) :
  length b = length a →
  np_delete (zip a b) idx = zip (np_delete a idx) (np_delete b idx).
Proof.
  intros Hlen. rewrite !np_delete_omap, length_zip, Hlen, Nat.min_id.
  apply omap_lookup_zip, Forall_forall.
  intros i [_ Hi]%list_elem_of_filter. apply elem_of_range in Hi. lia.
Qed.

Lemma gather_zip {A B} (a : list A) (b : list B) (idx : list nat) xs ys :
  gather a idx = Ok xs → gather b idx = Ok ys →
  gather (zip a b) idx = Ok (zip xs ys).
Proof.
  revert xs ys. induction idx as [|i idx IH]; intros xs ys; simpl.
  - by intros [= <-] [= <-].
  - unfold getitem. rewrite lookup_zip_with.
    destruct (a !! i) as [x|]; cbn [bind]; [|done].
    destruct (b !! i) as [y|]; cbn [bind];
      [|by destruct (gather a idx)].
    destruct (gather a idx) as [xs'|]; cbn [bind]; [|done].
    destruct (gather b idx) as [ys'|]; cbn [bind]; [|done].
    intros [= <-] [= <-]. simpl. by rewrite (IH xs' ys').
Qed.

(** A sampler that meets the contract of [random.sample] meets that of
    [np.random.choice] without replacement. *)
Lemma sample_choice_contract {rng}
    (f : list nat → nat → rng → result (list nat * rng)) :
  sample_contract f → choice_contract f.
Proof. intros Hf population k g _. apply Hf. Qed.

(** X15. The validation set and the test set that is left. For a test set
    that is not empty, under the contract of [np.random.choice] without
    replacement, with images and labels in lockstep and a size that is at
    most the number of rows, the split returns; the validation set has the
    size asked for and the test set loses as many rows; and the pairs of
    image and label of the two sets are, together, exactly the pairs there
    were: no row is lost, none is in both sets, and every image keeps its own
    label. For an empty test set the split does not return: it raises what
    [np.random.choice] raises, and when that returns, its array being then
    one of floats, [X_test[idx]] raises IndexError. *)
Theorem validation_split_partitions {A B rng}
    (random_choice : list nat → nat → rng → result (list nat * rng))
    (fifth : nat → nat) (X_test : list A) (y_test : list B) (g : rng) :
  choice_contract random_choice →
  length y_test = length X_test →
  (fifth (length X_test) ≤ length X_test)%nat →
  (X_test ≠ [] →
   ∃ X_val y_val X_test' y_test' g',
     validation_split random_choice fifth X_test y_test g =
       Ok (X_val, y_val, X_test', y_test', g') ∧
     length X_val = fifth (length X_test) ∧
     length y_val = fifth (length X_test) ∧
     length X_test' = (length X_test - fifth (length X_test))%nat ∧
     length y_test' = (length X_test - fifth (length X_test))%nat ∧
     zip X_val y_val ++ zip X_test' y_test' ≡ₚ zip X_test y_test) ∧
  (X_test = [] →
   validation_split random_choice fifth X_test y_test g =
     match random_choice [] (fifth 0%nat) g with
     | Ok _ => Raise IndexError
     | Raise e => Raise e
     end).
Proof.
  intros Hcontract Hlen Hsize. split.
  - intros Hrows. unfold validation_split.
    assert (range 0 (length X_test) ≠ []) as Hpopulation.
    { destruct X_test; [done|]. by rewrite range_nonempty by (simpl; lia). }
    pose proof (Hcontract (range 0 (length X_test)) (fifth (length X_test)) g
                  Hpopulation) as Hchoice.
    destruct (random_choice _ _ _) as [[idx g']|e]; cbn [bind fst snd];
      [|rewrite length_range in Hchoice; lia].
    destruct Hchoice as (_ & Hidx & Hsub).
    destruct (range 0 (length X_test)) as [|i0 population] eqn:Hrange;
      [done|]. rewrite <- Hrange in Hsub.
    cbn [dtype_of_ints getitem_array].
    destruct (selection_indices _ _ Hsub) as [_ Hbelow].
    destruct (gather_ok X_test idx Hbelow) as (X_val & HX & HlenX & _).
    destruct (gather_ok y_test idx) as (y_val & Hy & Hleny & _);
      [by rewrite Hlen|].
    rewrite HX, Hy. cbn [bind].
    exists X_val, y_val, (np_delete X_test idx), (np_delete y_test idx), g'.
    split; [done|]. split; [lia|]. split; [lia|].
    pose proof (gather_delete_partition X_test idx X_val Hsub HX) as HpX.
    pose proof (gather_delete_partition y_test idx y_val) as Hpy.
    rewrite Hlen in Hpy. specialize (Hpy Hsub Hy).
    apply Permutation_length in HpX, Hpy. rewrite length_app in HpX, Hpy.
    split; [lia|]. split; [lia|].
    rewrite <- np_delete_zip by done.
    apply gather_delete_partition.
    + by rewrite length_zip, Hlen, Nat.min_id.
    + by apply gather_zip.
  - intros ->. unfold validation_split. cbn [length range seq Nat.sub].
    by destruct (random_choice [] (fifth 0%nat) g).
Qed.

Lemma validation_split_partitions_witness :
  (∃ X_val y_val X_test' y_test' g',
     validation_split Run.rotating_sample Run.fifth
       Run.corpus Run.corpus_labels 3%nat =
       Ok (X_val, y_val, X_test', y_test', g') ∧
     length X_val = Run.fifth (length Run.corpus) ∧
     length y_val = Run.fifth (length Run.corpus) ∧
     length X_test' =
       (length Run.corpus - Run.fifth (length Run.corpus))%nat ∧
     length y_test' =
       (length Run.corpus - Run.fifth (length Run.corpus))%nat ∧
     zip X_val y_val ++ zip X_test' y_test' ≡ₚ
       zip Run.corpus Run.corpus_labels) ∧
  validation_split Run.rotating_sample Run.fifth
    (@nil byte) (@nil Z) 3%nat = Raise IndexError.
Proof.
  split.
  - apply (validation_split_partitions Run.rotating_sample Run.fifth
             Run.corpus Run.corpus_labels 3%nat).
    + apply sample_choice_contract, rotating_sample_contract.
    + reflexivity.
    + vm_compute. lia.
    + discriminate.
  - apply (validation_split_partitions Run.rotating_sample Run.fifth
             (@nil byte) (@nil Z) 3%nat).
    + apply sample_choice_contract, rotating_sample_contract.
    + reflexivity.
    + vm_compute. lia.
    + reflexivity.
Defined.

(** ** A glyph that scales to a single pixel *)

(** In a block of 12 x 12, a scaled glyph and its smeared form are written
    alike. *)
Lemma broadcast_to_smeared {glyph} (imresize : glyph → Q → raster) img :
  broadcast_to 12 12 (smeared imresize img scale) =
  broadcast_to 12 12 (imresize img scale).
Proof.
  unfold smeared.
  by destruct (imresize img scale) as [|[|px [|? ?]] [|? ?]].
Qed.

(** X16. A glyph that scales to a single pixel is not rejected: among at
    most [max_digits] glyphs, [concat_images] treats it exactly as a 12 x 12
    block of that pixel, numpy repeating the pixel over the block. So when
    every glyph scales to 12 x 12 or to one pixel, the canvas is returned,
    with the blocks of the smeared glyphs side by side inside the margins. *)
Theorem concat_images_smears_single_pixel {glyph}
    (imresize : glyph → Q → raster) (images : list glyph) :
  (length images ≤ max_digits)%nat →
  concat_images imresize images = concat_images (smeared imresize) images ∧
  (scaled_to_footprint (smeared imresize) images →
   ∃ canvas,
     concat_images imresize images = Ok canvas ∧
     has_shape 64 64 canvas ∧
     band (length images) canvas =
       hstack 12 ((λ img, smeared imresize img scale) <$> images)).
Proof.
  intros Hnum.
  assert (Hsame : concat_images imresize images =
                  concat_images (smeared imresize) images).
  { unfold concat_images.
    pose proof (for_each_sim
      (λ a b : raster, a = b ∧ has_shape (Z.to_nat height) (Z.to_nat width) a)
      (λ i new_image,
         image <- getitem images i ;;
         setitem_slice new_image (y_pad, height - y_pad)
           (x_offset (length images) i,
            x_offset (length images) i + new_width)
           (imresize image scale))
      (λ i new_image,
         image <- getitem images i ;;
         setitem_slice new_image (y_pad, height - y_pad)
           (x_offset (length images) i,
            x_offset (length images) i + new_width)
           (smeared imresize image scale))
      (range 0 (length images))) as Hsim.
    match type of Hsim with
    | ?Q → _ => assert Q as Hstep; [|specialize (Hsim Hstep)]
    end.
    { intros i a b Hi [<- Ha]. apply elem_of_range in Hi.
      unfold getitem. destruct (images !! i) as [img|]; cbn [bind]; [|done].
      rewrite !setitem_slice_canvas, glyph_rows_eq, glyph_cols_eq
        by (done || unfold max_digits in *; lia).
      cbn [fst snd]. change (Z.to_nat new_height) with 12%nat.
      change (Z.to_nat new_width) with 12%nat.
      rewrite broadcast_to_smeared.
      destruct (broadcast_to 12 12 (imresize img scale)); [|done].
      eexists. split; [done|]. split; [done|]. by apply has_shape_paste. }
    specialize (Hsim (zeros (Z.to_nat height) (Z.to_nat width))
                  (zeros (Z.to_nat height) (Z.to_nat width))
                  (conj eq_refl (has_shape_zeros _ _))).
    destruct (for_each _ _ _) as [a|e].
    - by destruct Hsim as (b & -> & <- & _).
    - by rewrite Hsim. }
  split; [done|]. intros Hscaled. rewrite Hsame.
  destruct (concat_images_placed (smeared imresize) images Hnum Hscaled)
    as (canvas & Hrun & Hshape & Hglyphs & _).
  exists canvas. split; [done|]. split; [done|].
  assert (Hblocks : Forall (has_shape 12 12)
                      ((λ img, smeared imresize img scale) <$> images)).
  { by apply Forall_fmap. }
  eapply raster_ext; [by apply has_shape_band| |].
  { pose proof (has_shape_hstack 12 _ Hblocks) as Hh.
    by rewrite length_fmap in Hh. }
  intros r c Hr Hc. rewrite pixel_band by done.
  assert (c `div` 12 < length images)%nat as Hi.
  { apply Nat.Div0.div_lt_upper_bound. lia. }
  destruct (lookup_lt_is_Some_2 images (c `div` 12)) as [img Himg]; [done|].
  pose proof (Nat.Div0.div_mod c 12) as Hdiv.
  pose proof (Nat.mod_upper_bound c 12 ltac:(lia)) as Hmod.
  replace c with (c `div` 12 * 12 + c `mod` 12)%nat at 2 by lia.
  rewrite (pixel_hstack 12 _ (c `div` 12) (smeared imresize img scale));
    [|done|by rewrite list_lookup_fmap, Himg|done|done].
  rewrite <- (Hglyphs (c `div` 12)%nat img r (c `mod` 12)%nat)
    by (done || unfold new_height, new_width; lia).
  f_equal. rewrite x_offset_eq, x_pad_eq. unfold max_digits in Hnum. lia.
Qed.

Lemma concat_images_smears_single_pixel_witness :
  concat_images Run.dot_resize [x01; x02] =
    concat_images (smeared Run.dot_resize) [x01; x02] ∧
  ∃ canvas,
    concat_images Run.dot_resize [x01; x02] = Ok canvas ∧
    has_shape 64 64 canvas ∧
    band 2 canvas =
      hstack 12 ((λ img, smeared Run.dot_resize img scale) <$> [x01; x02]).
Proof.
  split.
  - apply (concat_images_smears_single_pixel Run.dot_resize [x01; x02]).
    vm_compute. lia.
  - apply (concat_images_smears_single_pixel Run.dot_resize [x01; x02]).
    + vm_compute. lia.
    + repeat constructor.
Defined.
